(** * SmutCoin wallet backend: the sub-wallet container

    A shallow embedding of [WalletBackend/SubWallets.cpp] and of the data
    types of [WalletBackend/WalletTypes.h], with the properties of the
    container stated and proved (or refuted) over it.

    Conventions.
    - [uint64_t] values are [Z]; where the code can overflow the wrap-around
      modulo [2^64] is written out ([add64]).
    - [Crypto::PublicKey], [Crypto::SecretKey], [Crypto::KeyImage],
      [Crypto::KeyDerivation] and [Crypto::Hash] are 32 opaque bytes, read as
      one number in [N].
    - [std::unordered_map] is [gmap], [std::unordered_set] is [gset],
      [std::vector] is [list] with positions in [nat].
    - Every member function takes the container as an argument and returns
      the new container; the mutex is not modelled, each operation is one
      atomic step.
    - Randomness and the clock are arguments: the generated key pair, the
      adjusted timestamp and the outcome of each [std::shuffle]. *)

From stdpp Require Import base numbers option list strings gmap fin_maps.

#[local] Open Scope Z_scope.

(** ** Machine integers *)

Definition UINT64_MOD : Z := 2 ^ 64.

(** [a + b] in [uint64_t]. *)
Definition add64 (a b : Z) : Z := (a + b) mod UINT64_MOD.

(** Conversion of an [int] to [uint64_t] (used when an [int] indexes a map
    keyed by [uint64_t]). *)
Definition int_to_uint64 (d : Z) : Z := d mod UINT64_MOD.

(** ** Opaque key material *)

Abbreviation PublicKey := N (only parsing).
Abbreviation SecretKey := N (only parsing).
Abbreviation KeyImage := N (only parsing).
Abbreviation KeyDerivation := N (only parsing).
Abbreviation Hash := N (only parsing).

(** ** Ways a call can end *)

(** Modelled from the spec: the enumeration [WalletError] is declared in a
    header outside [SubWallets.cpp] and [WalletTypes.h]; its members are the ones
    the error table of the specification lists (the container itself uses
    [SUCCESS], [ILLEGAL_VIEW_WALLET_OPERATION],
    [ILLEGAL_NON_VIEW_WALLET_OPERATION] and [SUBWALLET_ALREADY_EXISTS]). *)
Inductive WalletError : Set :=
| SUCCESS
| ILLEGAL_VIEW_WALLET_OPERATION
| ILLEGAL_NON_VIEW_WALLET_OPERATION
| SUBWALLET_ALREADY_EXISTS
| NOT_ENOUGH_FUNDS
| NO_PRIMARY_ADDRESS.

(** The C++ exceptions the container raises. *)
Inductive exception : Set :=
| runtime_error (what : string)
| invalid_argument (what : string)
| out_of_range.

(** A call returns a value, fails with a tagged [WalletError], throws a C++
    exception, or has no behaviour defined by the language (dereferencing an
    end iterator, converting an infinite [double] to [int]). *)
Inductive outcome (A : Type) : Type :=
| Returns (a : A)
| Fails (e : WalletError)
| Throws (e : exception)
| Undefined.

Arguments Returns {A} a.
Arguments Fails {A} e.
Arguments Throws {A} e.
Arguments Undefined {A}.

#[global] Instance outcome_ret : MRet outcome := fun A a => Returns a.

#[global] Instance outcome_bind : MBind outcome := fun A B f m =>
  match m with
  | Returns a => f a
  | Fails e => Fails e
  | Throws e => Throws e
  | Undefined => Undefined
  end.

(** ** [WalletTypes.h] *)

Module TransactionInput.

Record t : Set := mk {
  keyImage : KeyImage;
  amount : Z;
  blockHeight : Z;
  transactionPublicKey : PublicKey;
  transactionIndex : Z;
  globalOutputIndex : Z;
  key : PublicKey;
  spendHeight : Z;
  unlockTime : Z;
  parentTransactionHash : Hash
}.

#[global] Instance eq_dec : EqDecision t.
Proof. solve_decision. Defined.

End TransactionInput.

Module TxInputAndOwner.

Record t : Set := mk {
  input : TransactionInput.t;
  publicSpendKey : PublicKey;
  privateSpendKey : SecretKey
}.

#[global] Instance eq_dec : EqDecision t.
Proof. solve_decision. Defined.

End TxInputAndOwner.

Module Transaction.

Record t : Type := mk {
  transfers : gmap PublicKey Z;
  hash : Hash;
  fee : Z;
  timestamp : Z;
  blockHeight : Z;
  paymentID : string;
  unlockTime : Z;
  isCoinbaseTransaction : bool
}.

#[global] Instance eq_dec : EqDecision t.
Proof. solve_decision. Defined.

Definition isFusionTransaction (tx : t) : bool :=
  bool_decide (fee tx = 0) && negb (isCoinbaseTransaction tx).

(** What is left of a [Transaction] after it has been the source of a move
    assignment: the scalar members and the hash are copied, the map and the
    string are handed over and left empty (libstdc++ and libc++). *)
Definition moved_from (tx : t) : t :=
  {| transfers := ∅;
     hash := hash tx;
     fee := fee tx;
     timestamp := timestamp tx;
     blockHeight := blockHeight tx;
     paymentID := "";
     unlockTime := unlockTime tx;
     isCoinbaseTransaction := isCoinbaseTransaction tx |}.

End Transaction.

(** ** The standard algorithms the container calls *)

Section algorithms.
Context {A : Type}.

(** [std::find_if] from position [first]: the position of the first element
    satisfying [pred], or the end position. *)
Fixpoint find_if (pred : A → bool) (v : list A) (first : nat) : nat :=
  match v with
  | [] => first
  | x :: v' => if pred x then first else find_if pred v' (S first)
  end.

(** The loop of [std::remove_if]: [first] reads the remaining [n] elements,
    [result] is where the next kept element is move-assigned to. *)
Fixpoint remove_if_loop (pred : A → bool) (moved : A → A)
    (n : nat) (v : list A) (result first : nat) : list A * nat :=
  match n with
  | O => (v, result)
  | S n' =>
      match v !! first with
      | None => (v, result)
      | Some x =>
          if pred x
          then remove_if_loop pred moved n' v result (S first)
          else remove_if_loop pred moved n'
                 (<[first := moved x]> (<[result := x]> v))
                 (S result) (S first)
      end
  end.

(** [std::remove_if(v.begin(), v.end(), pred)]: the vector afterwards (same
    length) and the returned iterator, as a position. *)
Definition remove_if (pred : A → bool) (moved : A → A) (v : list A)
    : list A * nat :=
  let first := find_if pred v 0 in
  if decide (first = length v) then (v, first)
  else remove_if_loop pred moved (length v - S first)%nat v first (S first).

(** [v.erase(it)] with ONE iterator: the element at [it] goes, the elements
    behind it move down by one. *)
Definition erase (v : list A) (it : nat) : list A := delete it v.

(** The idiom used three times in the container:
    [it = std::remove_if(...); if (it != v.end()) v.erase(it);] *)
Definition remove_if_then_erase (pred : A → bool) (moved : A → A)
    (v : list A) : list A :=
  let '(v', it) := remove_if pred moved v in
  if decide (it ≠ length v') then erase v' it else v'.

End algorithms.

(** ** What the container takes from the rest of the code base *)

(** The crypto, address and currency helpers and the currency constants are
    defined outside [SubWallets.cpp] and [WalletTypes.h]; the container is modelled over
    any choice of them.  [log10_to_int a] stands for the value of
    [int numberOfDigits = log10(a)] for an amount [a > 0]: the amount is
    converted to [double], [log10] is taken in floating point and the result
    is truncated to [int]. *)
Class Externals : Type := {
  secret_key_to_public_key : SecretKey → PublicKey;
  privateKeysToAddress : SecretKey → SecretKey → string;
  publicKeysToAddress : PublicKey → PublicKey → string;
  addressToKeys : string → PublicKey * PublicKey;
  generate_key_image : KeyDerivation → Z → PublicKey → SecretKey → KeyImage;
  scanHeightToTimestamp : Z → Z;
  getApproximateMaximumInputCount : Z → Z → Z → Z;
  FUSION_TX_MAX_SIZE : Z;
  FUSION_TX_MIN_IN_OUT_COUNT_RATIO : Z;
  FUSION_TX_MIN_INPUT_COUNT : Z;
  log10_to_int : Z → Z
}.

(** ** One sub-wallet *)

Module SubWallet.

(** Modelled from the spec: an entry of the Input Ledger.  The struct
    [TransactionInput] of [WalletTypes.h] has no [locked] member; the
    specification gives every UTXO a [locked] flag, kept here beside the
    input. *)
Record LedgerEntry : Set := mkEntry {
  entry_input : TransactionInput.t;
  entry_locked : bool
}.

(** Modelled from the spec: the class [SubWallet] ([SubWallet.h],
    [SubWallet.cpp]) lies outside the two files modelled here.  The record follows
    the "Sub-wallet Record" of the specification: the private spend key is
    absent in a view wallet, the Input Ledger is the collection of the
    sub-wallet's UTXOs. *)
Record t : Set := mk {
  publicSpendKey : PublicKey;
  privateSpendKey : option SecretKey;
  address : string;
  syncStartHeight : Z;
  syncStartTimestamp : Z;
  isPrimaryAddress : bool;
  ledger : list LedgerEntry
}.

Definition with_ledger (w : t) (l : list LedgerEntry) : t :=
  {| publicSpendKey := publicSpendKey w;
     privateSpendKey := privateSpendKey w;
     address := address w;
     syncStartHeight := syncStartHeight w;
     syncStartTimestamp := syncStartTimestamp w;
     isPrimaryAddress := isPrimaryAddress w;
     ledger := l |}.

Definition with_input (e : LedgerEntry) (i : TransactionInput.t) : LedgerEntry :=
  {| entry_input := i; entry_locked := entry_locked e |}.

Definition with_keyImage (i : TransactionInput.t) (ki : KeyImage)
    : TransactionInput.t :=
  TransactionInput.mk ki
    (TransactionInput.amount i) (TransactionInput.blockHeight i)
    (TransactionInput.transactionPublicKey i)
    (TransactionInput.transactionIndex i)
    (TransactionInput.globalOutputIndex i) (TransactionInput.key i)
    (TransactionInput.spendHeight i) (TransactionInput.unlockTime i)
    (TransactionInput.parentTransactionHash i).

Definition with_spendHeight (i : TransactionInput.t) (h : Z)
    : TransactionInput.t :=
  TransactionInput.mk (TransactionInput.keyImage i)
    (TransactionInput.amount i) (TransactionInput.blockHeight i)
    (TransactionInput.transactionPublicKey i)
    (TransactionInput.transactionIndex i)
    (TransactionInput.globalOutputIndex i) (TransactionInput.key i)
    h (TransactionInput.unlockTime i)
    (TransactionInput.parentTransactionHash i).

(** Modelled from the spec: the two constructors the container calls (with
    and without a private spend key); a new sub-wallet owns no UTXO. *)
Definition new (publicSpendKey : PublicKey) (privateSpendKey : SecretKey)
    (address : string) (scanHeight timestamp : Z) (isPrimaryAddress : bool) : t :=
  mk publicSpendKey (Some privateSpendKey) address scanHeight timestamp
     isPrimaryAddress [].

Definition new_view (publicSpendKey : PublicKey)
    (address : string) (scanHeight timestamp : Z) (isPrimaryAddress : bool) : t :=
  mk publicSpendKey None address scanHeight timestamp isPrimaryAddress [].

Definition hasKeyImage (w : t) (ki : KeyImage) : bool :=
  bool_decide (Exists (λ e, TransactionInput.keyImage (entry_input e) = ki) (ledger w)).

(** Modelled from the spec: [complete_and_store_input].  "If not a view
    wallet, derive the key image from the derivation, the output index and
    the sub-wallet's spend keys, then store.  For view wallets, store without
    a key image.  Duplicates (same key image) are idempotent." *)
Definition completeAndStoreTransactionInput `{!Externals} (w : t)
    (derivation : KeyDerivation) (outputIndex : Z)
    (input : TransactionInput.t) (isViewWallet : bool) : t :=
  match isViewWallet, privateSpendKey w with
  | false, Some sk =>
      let ki := generate_key_image derivation outputIndex (publicSpendKey w) sk in
      if hasKeyImage w ki then w
      else with_ledger w (ledger w ++ [mkEntry (with_keyImage input ki) false])
  | _, _ => with_ledger w (ledger w ++ [mkEntry input false])
  end.

Definition spendable (e : LedgerEntry) : bool :=
  bool_decide (TransactionInput.spendHeight (entry_input e) = 0)
  && negb (entry_locked e).

(** Modelled from the spec: [get_inputs].  "Return the unspent, unlocked
    UTXOs as (input, public spend key, private spend key) triples.  Fails if
    called on a view wallet." *)
Definition getInputs (w : t) : outcome (list TxInputAndOwner.t) :=
  match privateSpendKey w with
  | None => Fails ILLEGAL_VIEW_WALLET_OPERATION
  | Some sk =>
      Returns ((λ e, TxInputAndOwner.mk (entry_input e) (publicSpendKey w) sk)
                 <$> filter (λ e, spendable e = true) (ledger w))
  end.

(** Modelled from the spec: [mark_input_as_locked].  "Set [locked = true].
    Fails silently if the key image is unknown." *)
Definition markInputAsLocked (w : t) (ki : KeyImage) : t :=
  with_ledger w
    ((λ e, if decide (TransactionInput.keyImage (entry_input e) = ki)
           then mkEntry (entry_input e) true else e) <$> ledger w).

(** Modelled from the spec: [mark_input_as_spent].  "Set [spend_height] and
    clear [locked]." *)
Definition markInputAsSpent (w : t) (ki : KeyImage) (spendHeight : Z) : t :=
  with_ledger w
    ((λ e, if decide (TransactionInput.keyImage (entry_input e) = ki)
           then mkEntry (with_spendHeight (entry_input e) spendHeight) false
           else e) <$> ledger w).

(** Modelled from the spec: [remove_forked_inputs].  "For each UTXO: if
    [block_height >= fork_height], delete; else if
    [spend_height >= fork_height], unspend ([spend_height = 0],
    [locked = false])." *)
Definition removeForkedInputs (w : t) (forkHeight : Z) : t :=
  with_ledger w
    ((λ e, if decide (forkHeight ≤ TransactionInput.spendHeight (entry_input e))
           then mkEntry (with_spendHeight (entry_input e) 0) false else e)
     <$> filter (λ e, TransactionInput.blockHeight (entry_input e) < forkHeight)
           (ledger w)).

(** Modelled from the spec: [remove_cancelled_transactions].  "Clear
    [locked] on every UTXO whose [parent_transaction_hash] [is one of the
    hashes]." *)
Definition removeCancelledTransactions (w : t) (cancelled : gset Hash) : t :=
  with_ledger w
    ((λ e, if decide (TransactionInput.parentTransactionHash (entry_input e) ∈ cancelled)
           then mkEntry (entry_input e) false else e) <$> ledger w).

(** Modelled from the spec: [reset].  "Drop UTXOs with
    [block_height >= scan_height], clear all [locked] flags." *)
Definition reset (w : t) (scanHeight : Z) : t :=
  with_ledger w
    ((λ e, mkEntry (entry_input e) false)
     <$> filter (λ e, TransactionInput.blockHeight (entry_input e) < scanHeight)
           (ledger w)).

End SubWallet.

(** [std::min_element(first, last, less)]: the first smallest element, or
    the end iterator ([None]) on an empty range. *)
Definition min_element {A : Type} (less : A → A → bool) (v : list A) : option A :=
  match v with
  | [] => None
  | x :: v' =>
      Some (fold_left (λ smallest y, if less y smallest then y else smallest) v' x)
  end.

(** ** The container: [SubWallets.cpp] *)

Record SubWallets : Type := mkSubWallets {
  m_subWallets : gmap PublicKey SubWallet.t;
  m_transactions : list Transaction.t;
  m_lockedTransactions : list Transaction.t;
  m_privateViewKey : SecretKey;
  m_isViewWallet : bool;
  m_publicSpendKeys : list PublicKey
}.

Definition with_subWallets (c : SubWallets) (m : gmap PublicKey SubWallet.t) : SubWallets :=
  mkSubWallets m (m_transactions c) (m_lockedTransactions c)
    (m_privateViewKey c) (m_isViewWallet c) (m_publicSpendKeys c).

Definition with_transactions (c : SubWallets) (l : list Transaction.t) : SubWallets :=
  mkSubWallets (m_subWallets c) l (m_lockedTransactions c)
    (m_privateViewKey c) (m_isViewWallet c) (m_publicSpendKeys c).

Definition with_lockedTransactions (c : SubWallets) (l : list Transaction.t) : SubWallets :=
  mkSubWallets (m_subWallets c) (m_transactions c) l
    (m_privateViewKey c) (m_isViewWallet c) (m_publicSpendKeys c).

Definition with_publicSpendKeys (c : SubWallets) (l : list PublicKey) : SubWallets :=
  mkSubWallets (m_subWallets c) (m_transactions c) (m_lockedTransactions c)
    (m_privateViewKey c) (m_isViewWallet c) l.

Section container.
Context `{!Externals}.

(** *** Constructors *)

(** [SubWallets(privateSpendKey, privateViewKey, address, scanHeight,
    newWallet)]; [now] is [Utilities::getCurrentTimestampAdjusted()]. *)
Definition newSubWallets (privateSpendKey privateViewKey : SecretKey)
    (address : string) (scanHeight : Z) (newWallet : bool) (now : Z) : SubWallets :=
  let publicSpendKey := secret_key_to_public_key privateSpendKey in
  let timestamp := if newWallet then now else 0 in
  let isPrimaryAddress := true in
  mkSubWallets
    (<[publicSpendKey :=
         SubWallet.new publicSpendKey privateSpendKey address scanHeight
           timestamp isPrimaryAddress]> ∅)
    [] [] privateViewKey false [publicSpendKey].

(** [SubWallets(privateViewKey, address, scanHeight, newWallet)]: the view
    only container. *)
Definition newViewSubWallets (privateViewKey : SecretKey)
    (address : string) (scanHeight : Z) (newWallet : bool) (now : Z) : SubWallets :=
  let '(publicSpendKey, publicViewKey) := addressToKeys address in
  let timestamp := if newWallet then now else 0 in
  let isPrimaryAddress := true in
  mkSubWallets
    (<[publicSpendKey :=
         SubWallet.new_view publicSpendKey address scanHeight timestamp
           isPrimaryAddress]> ∅)
    [] [] privateViewKey true [publicSpendKey].

(** *** Adding sub-wallets *)

(** [addSubWallet()]; [spendKey] is the pair [Crypto::generate_keys]
    produces, [now] the adjusted timestamp. *)
Definition addSubWallet (spendKey : PublicKey * SecretKey) (now : Z)
    (c : SubWallets) : WalletError * SubWallets :=
  if m_isViewWallet c then (ILLEGAL_VIEW_WALLET_OPERATION, c)
  else
    let address := privateKeysToAddress (snd spendKey) (m_privateViewKey c) in
    let isPrimaryAddress := false in
    let scanHeight := 0 in
    (SUCCESS,
     with_subWallets c
       (<[fst spendKey :=
            SubWallet.new (fst spendKey) (snd spendKey) address scanHeight
              now isPrimaryAddress]> (m_subWallets c))).

Definition importSubWallet (privateSpendKey : SecretKey) (scanHeight : Z)
    (newWallet : bool) (now : Z) (c : SubWallets) : WalletError * SubWallets :=
  if m_isViewWallet c then (ILLEGAL_VIEW_WALLET_OPERATION, c)
  else
    let publicSpendKey := secret_key_to_public_key privateSpendKey in
    let timestamp := if newWallet then now else 0 in
    let address := privateKeysToAddress privateSpendKey (m_privateViewKey c) in
    let isPrimaryAddress := false in
    match m_subWallets c !! publicSpendKey with
    | Some _ => (SUBWALLET_ALREADY_EXISTS, c)
    | None =>
        (SUCCESS,
         with_publicSpendKeys
           (with_subWallets c
              (<[publicSpendKey :=
                   SubWallet.new publicSpendKey privateSpendKey address
                     scanHeight timestamp isPrimaryAddress]> (m_subWallets c)))
           (m_publicSpendKeys c ++ [publicSpendKey]))
    end.

Definition importViewSubWallet (publicSpendKey : PublicKey) (scanHeight : Z)
    (newWallet : bool) (now : Z) (c : SubWallets) : WalletError * SubWallets :=
  if negb (m_isViewWallet c) then (ILLEGAL_NON_VIEW_WALLET_OPERATION, c)
  else
    match m_subWallets c !! publicSpendKey with
    | Some _ => (SUBWALLET_ALREADY_EXISTS, c)
    | None =>
        let timestamp := if newWallet then now else 0 in
        let publicViewKey := secret_key_to_public_key (m_privateViewKey c) in
        let address := publicKeysToAddress publicSpendKey publicViewKey in
        let isPrimaryAddress := false in
        (SUCCESS,
         with_publicSpendKeys
           (with_subWallets c
              (<[publicSpendKey :=
                   SubWallet.new_view publicSpendKey address scanHeight
                     timestamp isPrimaryAddress]> (m_subWallets c)))
           (m_publicSpendKeys c ++ [publicSpendKey]))
    end.

(** *** Where to start the initial sync *)

Definition getMinInitialSyncStart (c : SubWallets) : outcome (Z * Z) :=
  match
    min_element
      (λ lhs rhs, bool_decide (SubWallet.syncStartTimestamp lhs.2
                               < SubWallet.syncStartTimestamp rhs.2))
      (map_to_list (m_subWallets c)),
    min_element
      (λ lhs rhs, bool_decide (SubWallet.syncStartHeight lhs.2
                               < SubWallet.syncStartHeight rhs.2))
      (map_to_list (m_subWallets c))
  with
  | Some minElementByTimestamp, Some minElementByHeight =>
      let minTimestamp := SubWallet.syncStartTimestamp minElementByTimestamp.2 in
      let minHeight := SubWallet.syncStartHeight minElementByHeight.2 in
      if decide (minHeight = 0 ∨ minTimestamp = 0)
      then Returns (minHeight, minTimestamp)
      else
        let timestampFromHeight := scanHeightToTimestamp minHeight in
        if decide (timestampFromHeight < minTimestamp)
        then Returns (minHeight, 0)
        else Returns (0, minTimestamp)
  | _, _ => Undefined
  end.

(** *** The journal *)

Definition addUnconfirmedTransaction (tx : Transaction.t) (c : SubWallets)
    : SubWallets :=
  with_lockedTransactions c (m_lockedTransactions c ++ [tx]).

Definition addTransaction (tx : Transaction.t) (c : SubWallets) : SubWallets :=
  let locked :=
    remove_if_then_erase
      (λ transaction, bool_decide (Transaction.hash tx = Transaction.hash transaction))
      Transaction.moved_from (m_lockedTransactions c) in
  with_transactions (with_lockedTransactions c locked) (m_transactions c ++ [tx]).

Definition completeAndStoreTransactionInput (publicSpendKey : PublicKey)
    (derivation : KeyDerivation) (outputIndex : Z)
    (input : TransactionInput.t) (c : SubWallets) : SubWallets :=
  match m_subWallets c !! publicSpendKey with
  | Some subWallet =>
      with_subWallets c
        (<[publicSpendKey :=
             SubWallet.completeAndStoreTransactionInput subWallet derivation
               outputIndex input (m_isViewWallet c)]> (m_subWallets c))
  | None => c
  end.

(** *** The view wallet guard *)

Definition throwIfViewWallet (c : SubWallets) : outcome unit :=
  if m_isViewWallet c
  then Throws (runtime_error
    "Wallet is a view wallet, but this function cannot be called in a view wallet")
  else Returns ().

(** *** Input selection *)

(** The first two loops of both selection functions: [at] on every public
    key (throws [std::out_of_range] at the first unknown one), then the
    inputs of every wallet found, in that order. *)
Definition gatherInputs (takeFromAll : bool)
    (subWalletsToTakeFrom : list PublicKey) (c : SubWallets)
    : outcome (list TxInputAndOwner.t) :=
  let subWalletsToTakeFrom :=
    if takeFromAll then m_publicSpendKeys c else subWalletsToTakeFrom in
  wallets ← mapM (λ publicKey,
                    match m_subWallets c !! publicKey with
                    | Some subWallet => Returns subWallet
                    | None => Throws out_of_range
                    end) subWalletsToTakeFrom;
  moreInputs ← mapM SubWallet.getInputs wallets;
  mret (concat moreInputs).

(** The accumulation loop of [getTransactionInputsForAmount]. *)
Fixpoint takeInputsForAmount (amount : Z)
    (availableInputs inputsToUse : list TxInputAndOwner.t) (foundMoney : Z)
    : outcome (list TxInputAndOwner.t * Z) :=
  match availableInputs with
  | [] => Throws (invalid_argument "Not enough funds found!")
  | walletAmount :: availableInputs' =>
      let inputsToUse := inputsToUse ++ [walletAmount] in
      let foundMoney :=
        add64 foundMoney
          (TransactionInput.amount (TxInputAndOwner.input walletAmount)) in
      if decide (amount ≤ foundMoney)
      then Returns (inputsToUse, foundMoney)
      else takeInputsForAmount amount availableInputs' inputsToUse foundMoney
  end.

(** [shuffle] is what [std::shuffle] makes of the gathered inputs. *)
Definition getTransactionInputsForAmount
    (shuffle : list TxInputAndOwner.t → list TxInputAndOwner.t)
    (amount : Z) (takeFromAll : bool) (subWalletsToTakeFrom : list PublicKey)
    (c : SubWallets) : outcome (list TxInputAndOwner.t * Z) :=
  _ ← throwIfViewWallet c;
  availableInputs ← gatherInputs takeFromAll subWalletsToTakeFrom c;
  let availableInputs := shuffle availableInputs in
  takeInputsForAmount amount availableInputs [] 0.

(** [int numberOfDigits = log10(amount)]: [log10(0)] is minus infinity, and
    the conversion of an infinite [double] to [int] is undefined. *)
Definition numberOfDigits (amount : Z) : outcome Z :=
  if decide (amount = 0) then Undefined else Returns (log10_to_int amount).

(** The bucketing loop: [buckets[numberOfDigits].push_back(walletAmount)]. *)
Fixpoint fillBuckets (availableInputs : list TxInputAndOwner.t)
    (buckets : gmap Z (list TxInputAndOwner.t))
    : outcome (gmap Z (list TxInputAndOwner.t)) :=
  match availableInputs with
  | [] => Returns buckets
  | walletAmount :: availableInputs' =>
      digits ← numberOfDigits
                 (TransactionInput.amount (TxInputAndOwner.input walletAmount));
      let k := int_to_uint64 digits in
      fillBuckets availableInputs'
        (<[k := default [] (buckets !! k) ++ [walletAmount]]> buckets)
  end.

(** The inner loop over one bucket; [true] when the function returned from
    inside the loop. *)
Fixpoint takeFromBucket (maxInputsToTake : Z) (bucket : list TxInputAndOwner.t)
    (inputsToUse : list TxInputAndOwner.t) (foundMoney : Z)
    : bool * (list TxInputAndOwner.t * Z) :=
  match bucket with
  | [] => (false, (inputsToUse, foundMoney))
  | walletAmount :: bucket' =>
      let inputsToUse := inputsToUse ++ [walletAmount] in
      let foundMoney :=
        add64 foundMoney
          (TransactionInput.amount (TxInputAndOwner.input walletAmount)) in
      if decide (maxInputsToTake ≤ Z.of_nat (length inputsToUse))
      then (true, (inputsToUse, foundMoney))
      else takeFromBucket maxInputsToTake bucket' inputsToUse foundMoney
  end.

(** The outer loop over the buckets to take from. *)
Fixpoint takeFromBuckets (maxInputsToTake : Z)
    (bucketsToTakeFrom : list (list TxInputAndOwner.t))
    (inputsToUse : list TxInputAndOwner.t) (foundMoney : Z)
    : list TxInputAndOwner.t * Z :=
  match bucketsToTakeFrom with
  | [] => (inputsToUse, foundMoney)
  | bucket :: bucketsToTakeFrom' =>
      match takeFromBucket maxInputsToTake bucket inputsToUse foundMoney with
      | (true, r) => r
      | (false, (inputsToUse, foundMoney)) =>
          takeFromBuckets maxInputsToTake bucketsToTakeFrom' inputsToUse foundMoney
      end
  end.

(** [shuffle] and [shuffleBuckets] are the outcomes of the two
    [std::shuffle] calls; the buckets are visited in the order of
    [map_to_list]. *)
Definition getFusionTransactionInputs
    (shuffle : list TxInputAndOwner.t → list TxInputAndOwner.t)
    (shuffleBuckets : list (list TxInputAndOwner.t) → list (list TxInputAndOwner.t))
    (takeFromAll : bool) (subWalletsToTakeFrom : list PublicKey) (mixin : Z)
    (c : SubWallets) : outcome (list TxInputAndOwner.t * Z * Z) :=
  _ ← throwIfViewWallet c;
  availableInputs ← gatherInputs takeFromAll subWalletsToTakeFrom c;
  let maxInputsToTake :=
    getApproximateMaximumInputCount FUSION_TX_MAX_SIZE
      FUSION_TX_MIN_IN_OUT_COUNT_RATIO mixin in
  let availableInputs := shuffle availableInputs in
  buckets ← fillBuckets availableInputs ∅;
  let fullBuckets :=
    filter (λ bucket, FUSION_TX_MIN_INPUT_COUNT ≤ Z.of_nat (length bucket))
      ((map_to_list buckets).*2) in
  let fullBuckets := shuffleBuckets fullBuckets in
  let bucketsToTakeFrom :=
    match fullBuckets with
    | front :: _ => [front]
    | [] => (map_to_list buckets).*2
    end in
  let '(inputsToUse, foundMoney) :=
    takeFromBuckets maxInputsToTake bucketsToTakeFrom [] 0 in
  mret (inputsToUse, maxInputsToTake, foundMoney).

(** *** Locking and spending inputs *)

Definition markInputAsSpent (keyImage : KeyImage) (publicKey : PublicKey)
    (spendHeight : Z) (c : SubWallets) : outcome SubWallets :=
  _ ← throwIfViewWallet c;
  match m_subWallets c !! publicKey with
  | None => Throws out_of_range
  | Some subWallet =>
      mret (with_subWallets c
              (<[publicKey := SubWallet.markInputAsSpent subWallet keyImage spendHeight]>
                 (m_subWallets c)))
  end.

Definition markInputAsLocked (keyImage : KeyImage) (publicKey : PublicKey)
    (c : SubWallets) : outcome SubWallets :=
  _ ← throwIfViewWallet c;
  match m_subWallets c !! publicKey with
  | None => Throws out_of_range
  | Some subWallet =>
      mret (with_subWallets c
              (<[publicKey := SubWallet.markInputAsLocked subWallet keyImage]>
                 (m_subWallets c)))
  end.

(** *** Forks, cancellations, reset *)

Definition removeForkedTransactions (forkHeight : Z) (c : SubWallets)
    : SubWallets :=
  let transactions :=
    remove_if_then_erase
      (λ tx, bool_decide (forkHeight ≤ Transaction.blockHeight tx))
      Transaction.moved_from (m_transactions c) in
  with_subWallets (with_transactions c transactions)
    ((λ subWallet, SubWallet.removeForkedInputs subWallet forkHeight)
     <$> m_subWallets c).

Definition removeCancelledTransactions (cancelledTransactions : gset Hash)
    (c : SubWallets) : outcome SubWallets :=
  _ ← throwIfViewWallet c;
  let locked :=
    remove_if_then_erase
      (λ tx, bool_decide (Transaction.hash tx ∈ cancelledTransactions))
      Transaction.moved_from (m_lockedTransactions c) in
  mret (with_subWallets (with_lockedTransactions c locked)
          ((λ subWallet,
              SubWallet.removeCancelledTransactions subWallet cancelledTransactions)
           <$> m_subWallets c)).

Definition getLockedTransactionsHashes (c : SubWallets) : outcome (gset Hash) :=
  _ ← throwIfViewWallet c;
  mret (list_to_set (Transaction.hash <$> m_lockedTransactions c)).

Definition reset (scanHeight : Z) (c : SubWallets) : SubWallets :=
  let transactions :=
    remove_if_then_erase
      (λ tx, bool_decide (scanHeight ≤ Transaction.blockHeight tx))
      Transaction.moved_from (m_transactions c) in
  with_subWallets
    (with_transactions (with_lockedTransactions c []) transactions)
    ((λ subWallet, SubWallet.reset subWallet scanHeight) <$> m_subWallets c).

Definition getTransactions (c : SubWallets) : list Transaction.t :=
  m_transactions c.

Definition getUnconfirmedTransactions (c : SubWallets) : list Transaction.t :=
  m_lockedTransactions c.

End container.

(** ** Vocabulary of the properties *)

Definition amount_of (i : TxInputAndOwner.t) : Z :=
  TransactionInput.amount (TxInputAndOwner.input i).

(** The amount is a [uint64_t]. *)
Definition amount_in_range (i : TxInputAndOwner.t) : Prop :=
  0 ≤ amount_of i < UINT64_MOD.

(** Sum of the amounts, in unbounded arithmetic. *)
Definition total (l : list TxInputAndOwner.t) : Z :=
  foldr (λ i s, amount_of i + s) 0 l.

(** [public_spend_keys] and the keys of [sub_wallets] are the same set. *)
Definition keys_consistent (c : SubWallets) : Prop :=
  list_to_set (m_publicSpendKeys c) =@{gset N} dom (m_subWallets c).

(** [tx] occurs exactly once in [l]. *)
Definition present_once (tx : Transaction.t) (l : list Transaction.t) : Prop :=
  length (filter (λ t, t = tx) l) = 1%nat.

(** No entry of [l] carries the hash [h]. *)
Definition hash_absent (h : Hash) (l : list Transaction.t) : Prop :=
  Forall (λ t, Transaction.hash t ≠ h) l.

(** [m] is the least value of [f] over the sub-wallets of [c]. *)
Definition least_over (f : SubWallet.t → Z) (c : SubWallets) (m : Z) : Prop :=
  (∃ k w, m_subWallets c !! k = Some w ∧ f w = m)
  ∧ ∀ k w, m_subWallets c !! k = Some w → m ≤ f w.

(** The bucket the fusion selection files an input under: the code's own
    grouping, by the truncated floating-point [log10] of the amount
    converted to [uint64_t] (not by the exact [floor(log10(amount))], see
    [floor_log10]). *)
Definition bucket_index `{!Externals} (i : TxInputAndOwner.t) : Z :=
  int_to_uint64 (log10_to_int (amount_of i)).

Definition bucket_members `{!Externals} (b : Z) (l : list TxInputAndOwner.t)
    : list TxInputAndOwner.t :=
  filter (λ i, bucket_index i = b) l.

(** Bucket [b] of the code's grouping exists among the candidates [l] and
    is full. *)
Definition full_bucket `{!Externals} (b : Z) (l : list TxInputAndOwner.t) : Prop :=
  bucket_members b l ≠ []
  ∧ FUSION_TX_MIN_INPUT_COUNT ≤ Z.of_nat (length (bucket_members b l)).

(** What [std::remove_if] leaves behind a kept element it moved away. *)
Definition leftover {A : Type} (pred : A → bool) (moved : A → A) (x : A) : A :=
  if pred x then x else moved x.

(** The message of [throwIfViewWallet]. *)
Definition view_wallet_message : string :=
  "Wallet is a view wallet, but this function cannot be called in a view wallet".

(** The confirmation-collapse law at [tx] and [c]: after
    [addUnconfirmedTransaction(tx); addTransaction(tx)] the transaction is
    confirmed exactly once and no locked entry carries its hash. *)
Definition confirmation_collapse (tx : Transaction.t) (c : SubWallets) : Prop :=
  let c' := addTransaction tx (addUnconfirmedTransaction tx c) in
  present_once tx (m_transactions c')
  ∧ hash_absent (Transaction.hash tx) (m_lockedTransactions c').

(** The message of the exception that ends [getTransactionInputsForAmount]
    when the inputs run out. *)
Definition not_enough_funds_message : string := "Not enough funds found!".

(** The call ended for lack of funds, whether reported as the tagged error
    or as the exception the code throws. *)
Definition fails_not_enough_funds {A : Type} (r : outcome A) : Prop :=
  r = Fails NOT_ENOUGH_FUNDS
  ∨ r = Throws (invalid_argument not_enough_funds_message).

(** Total of the spendable inputs of the selected sub-wallets. *)
Definition spendable_total (takeFromAll : bool)
    (subWalletsToTakeFrom : list PublicKey) (c : SubWallets) : Z :=
  match gatherInputs takeFromAll subWalletsToTakeFrom c with
  | Returns availableInputs => total availableInputs
  | _ => 0
  end.

(** The contract of the standard selection in the words of the
    specification: the call returns inputs whose amounts add up to the
    returned sum, which covers the target, or it fails for lack of funds;
    and it fails for lack of funds exactly when the spendable total is below
    the target. *)
Definition selection_contract
    (shuffle : list TxInputAndOwner.t → list TxInputAndOwner.t)
    (amount : Z) (takeFromAll : bool) (subWalletsToTakeFrom : list PublicKey)
    (c : SubWallets) : Prop :=
  let r := getTransactionInputsForAmount shuffle amount takeFromAll
             subWalletsToTakeFrom c in
  ((∃ inputs sum, r = Returns (inputs, sum) ∧ sum = total inputs ∧ amount ≤ sum)
   ∨ fails_not_enough_funds r)
  ∧ (fails_not_enough_funds r
     ↔ spendable_total takeFromAll subWalletsToTakeFrom c < amount).

(** Every selected key names a sub-wallet that holds a private spend key. *)
Definition selection_available (takeFromAll : bool)
    (subWalletsToTakeFrom : list PublicKey) (c : SubWallets) : Prop :=
  Forall (λ publicKey,
            ∃ subWallet, m_subWallets c !! publicKey = Some subWallet
                         ∧ is_Some (SubWallet.privateSpendKey subWallet))
    (if takeFromAll then m_publicSpendKeys c else subWalletsToTakeFrom).

(** What the standard selection does, given the gathered inputs: it
    returns a prefix of the shuffled inputs with the sum of its amounts,
    covering the target, or throws for lack of funds; and it throws exactly
    when the total is below the target or nothing is spendable. *)
Definition selection_outcome
    (shuffle : list TxInputAndOwner.t → list TxInputAndOwner.t)
    (amount : Z) (takeFromAll : bool) (keys : list PublicKey) (c : SubWallets)
    (availableInputs : list TxInputAndOwner.t) : Prop :=
  let r := getTransactionInputsForAmount shuffle amount takeFromAll keys c in
  ((∃ inputs sum,
      r = Returns (inputs, sum)
      ∧ inputs `prefix_of` shuffle availableInputs
      ∧ sum = total inputs ∧ amount ≤ sum)
   ∨ r = Throws (invalid_argument not_enough_funds_message))
  ∧ (r = Throws (invalid_argument not_enough_funds_message)
     ↔ total availableInputs < amount ∨ availableInputs = []).

(** The pair [getMinInitialSyncStart] is specified to return, from the
    least height [H] and the least timestamp [T]. *)
Definition sync_start_from `{!Externals} (H T : Z) : Z * Z :=
  if decide (H = 0 ∨ T = 0) then (H, T)
  else if decide (scanHeightToTimestamp H < T) then (H, 0)
  else (0, T).

(** The bucketing step as the specification describes it, for one
    candidate: the step returns, and a candidate of amount zero is filed
    under bucket 0. *)
Definition bucketing_guards_zero `{!Externals} (i : TxInputAndOwner.t) : Prop :=
  ∃ buckets, fillBuckets [i] ∅ = Returns buckets
             ∧ (amount_of i = 0 → i ∈ default [] (buckets !! 0)).

(** The fusion selection took all its inputs from one full bucket. *)
Definition from_one_full_bucket `{!Externals}
    (availableInputs inputs : list TxInputAndOwner.t) : Prop :=
  ∃ b, full_bucket b availableInputs
       ∧ Forall (λ i, i ∈ bucket_members b availableInputs) inputs.

(** ** Concrete data for the examples *)

(** Number of decimal digits minus one, by repeated division. *)
Fixpoint ilog10 (fuel : nat) (a : Z) : Z :=
  match fuel with
  | O => 0
  | S fuel' => if decide (a < 10) then 0 else 1 + ilog10 fuel' (a / 10)
  end.

(** One choice of the outside helpers; the fusion constants are those of
    the bucketing scenario ([FUSION_TX_MIN_INPUT_COUNT = 4]). *)
Definition ex_externals : Externals := {|
  secret_key_to_public_key := λ sk, (sk + 1000)%N;
  privateKeysToAddress := λ spend view, "SMUTfull";
  publicKeysToAddress := λ spend view, "SMUTview";
  addressToKeys := λ address, (7%N, 8%N);
  generate_key_image := λ derivation outputIndex pk sk, (derivation + pk)%N;
  scanHeightToTimestamp := λ height, 1500000000 + 30 * height;
  getApproximateMaximumInputCount := λ size ratio mixin, 3;
  FUSION_TX_MAX_SIZE := 30000;
  FUSION_TX_MIN_IN_OUT_COUNT_RATIO := 4;
  FUSION_TX_MIN_INPUT_COUNT := 4;
  log10_to_int := ilog10 20
|}.

(** A full wallet and a view wallet, as the constructors make them. *)
Definition ex_wallet : SubWallets :=
  newSubWallets (H := ex_externals) 1 2 "SMUTfull" 0 false 0.

Definition ex_view_wallet : SubWallets :=
  newViewSubWallets (H := ex_externals) 2 "SMUTview" 0 false 0.

Definition ex_tx (hash : Hash) (blockHeight : Z) : Transaction.t :=
  Transaction.mk ∅ hash 10 0 blockHeight "" 0 false.

(** Three confirmed transactions at heights 10, 20 and 30. *)
Definition ex_wallet_three_txs : SubWallets :=
  addTransaction (ex_tx 3 30)
    (addTransaction (ex_tx 2 20) (addTransaction (ex_tx 1 10) ex_wallet)).

Definition ex_input (amount : Z) : TransactionInput.t :=
  TransactionInput.mk 0 amount 1 0 0 0 0 0 0 0.

(** The wallet of the bucketing scenario: inputs of amounts
    1, 2, 5, 7, 20, 50, 80, 80, 100, 600, 700, stored in that order, each
    with a key derivation of its own. *)
Definition ex_wallet_funded : SubWallets :=
  foldl (λ c da,
           completeAndStoreTransactionInput (H := ex_externals) 1001%N
             da.1 0 (ex_input da.2) c)
    ex_wallet
    [(1%N, 1); (2%N, 2); (3%N, 5); (4%N, 7); (5%N, 20); (6%N, 50); (7%N, 80);
     (8%N, 80); (9%N, 100); (10%N, 600); (11%N, 700)].

(** A wallet whose only input has amount zero. *)
Definition ex_wallet_zero : SubWallets :=
  completeAndStoreTransactionInput (H := ex_externals) 1001%N 5 0
    (ex_input 0) ex_wallet.

(** The spendable inputs of [ex_wallet_funded], in ledger order. *)
Definition ex_available : list TxInputAndOwner.t :=
  Eval vm_compute in
    match gatherInputs true [] ex_wallet_funded with
    | Returns availableInputs => availableInputs
    | _ => []
    end.

(** A wallet created at scan height 400000 as a new wallet, to which a
    sub-wallet with scan height 500000 is imported later. *)
Definition ex_wallet_syncing : SubWallets :=
  (importSubWallet (H := ex_externals) 5 500000 true 1530000000
     (newSubWallets (H := ex_externals) 1 2 "SMUTfull" 400000 true 1520000000)).2.

(** The candidate the zero-amount wallet offers. *)
Definition ex_zero_candidate : TxInputAndOwner.t :=
  TxInputAndOwner.mk (SubWallet.with_keyImage (ex_input 0) 1006) 1001 1.

(** ** The remaining operations of [SubWallets.cpp] *)

Definition isViewWallet (c : SubWallets) : bool := m_isViewWallet c.

Definition getPrivateViewKey (c : SubWallets) : SecretKey := m_privateViewKey c.

(** [getKeyImageOwner(keyImage)]: the sub-wallets are visited in the order
    of [map_to_list]; [Crypto::PublicKey()] is the all-zero key. *)
Definition getKeyImageOwner (keyImage : KeyImage) (c : SubWallets)
    : bool * PublicKey :=
  if m_isViewWallet c then (false, 0%N)
  else
    let subWallets := map_to_list (m_subWallets c) in
    match subWallets
          !! find_if (λ entry, SubWallet.hasKeyImage entry.2 keyImage) subWallets 0 with
    | Some entry => (true, SubWallet.publicSpendKey entry.2)
    | None => (false, 0%N)
    end.

(** [getPrimaryAddress()]: [std::find_if] over the map, an exception when it
    comes back with the end iterator. *)
Definition getPrimaryAddress (c : SubWallets) : outcome string :=
  let subWallets := map_to_list (m_subWallets c) in
  match subWallets
        !! find_if (λ subWallet, SubWallet.isPrimaryAddress subWallet.2) subWallets 0 with
  | None => Throws (runtime_error "This container has no primary address!")
  | Some it => Returns (SubWallet.address it.2)
  end.

(** The loop of [getBalance]; [subWalletBalance] is [SubWallet::getBalance],
    which lies outside [SubWallets.cpp]: it gives the unlocked and the locked
    balance of one sub-wallet at a height. *)
Fixpoint sumBalances (subWalletBalance : SubWallet.t → Z → Z * Z)
    (currentHeight : Z) (subWalletsToTakeFrom : list PublicKey) (c : SubWallets)
    (unlockedBalance lockedBalance : Z) : outcome (Z * Z) :=
  match subWalletsToTakeFrom with
  | [] => Returns (unlockedBalance, lockedBalance)
  | pubKey :: subWalletsToTakeFrom' =>
      match m_subWallets c !! pubKey with
      | None => Throws out_of_range
      | Some subWallet =>
          let '(unlocked, locked) := subWalletBalance subWallet currentHeight in
          sumBalances subWalletBalance currentHeight subWalletsToTakeFrom' c
            (add64 unlockedBalance unlocked) (add64 lockedBalance locked)
      end
  end.

Definition getBalance (subWalletBalance : SubWallet.t → Z → Z * Z)
    (subWalletsToTakeFrom : list PublicKey) (takeFromAll : bool)
    (currentHeight : Z) (c : SubWallets) : outcome (Z * Z) :=
  let subWalletsToTakeFrom :=
    if takeFromAll then m_publicSpendKeys c else subWalletsToTakeFrom in
  sumBalances subWalletBalance currentHeight subWalletsToTakeFrom c 0 0.

(** ** Sequences of operations *)

(** The operations that change a container, with their arguments (and, for
    the ones that draw a key pair or read the clock, what they drew). *)
Inductive operation : Type :=
| AddSubWallet (spendKey : PublicKey * SecretKey) (now : Z)
| ImportSubWallet (privateSpendKey : SecretKey) (scanHeight : Z)
    (newWallet : bool) (now : Z)
| ImportViewSubWallet (publicSpendKey : PublicKey) (scanHeight : Z)
    (newWallet : bool) (now : Z)
| AddUnconfirmedTransaction (tx : Transaction.t)
| AddTransaction (tx : Transaction.t)
| CompleteAndStoreTransactionInput (publicSpendKey : PublicKey)
    (derivation : KeyDerivation) (outputIndex : Z) (input : TransactionInput.t)
| MarkInputAsSpent (keyImage : KeyImage) (publicKey : PublicKey) (spendHeight : Z)
| MarkInputAsLocked (keyImage : KeyImage) (publicKey : PublicKey)
| RemoveForkedTransactions (forkHeight : Z)
| RemoveCancelledTransactions (cancelledTransactions : gset Hash)
| Reset (scanHeight : Z).

(** The container after a call: the guarded operations throw before they
    touch anything, so a call that does not return leaves the container as
    it was. *)
Definition container_after (r : outcome SubWallets) (c : SubWallets) : SubWallets :=
  match r with
  | Returns c' => c'
  | _ => c
  end.

Definition perform `{!Externals} (o : operation) (c : SubWallets) : SubWallets :=
  match o with
  | AddSubWallet spendKey now => (addSubWallet spendKey now c).2
  | ImportSubWallet privateSpendKey scanHeight newWallet now =>
      (importSubWallet privateSpendKey scanHeight newWallet now c).2
  | ImportViewSubWallet publicSpendKey scanHeight newWallet now =>
      (importViewSubWallet publicSpendKey scanHeight newWallet now c).2
  | AddUnconfirmedTransaction tx => addUnconfirmedTransaction tx c
  | AddTransaction tx => addTransaction tx c
  | CompleteAndStoreTransactionInput publicSpendKey derivation outputIndex input =>
      completeAndStoreTransactionInput publicSpendKey derivation outputIndex input c
  | MarkInputAsSpent keyImage publicKey spendHeight =>
      container_after (markInputAsSpent keyImage publicKey spendHeight c) c
  | MarkInputAsLocked keyImage publicKey =>
      container_after (markInputAsLocked keyImage publicKey c) c
  | RemoveForkedTransactions forkHeight => removeForkedTransactions forkHeight c
  | RemoveCancelledTransactions cancelledTransactions =>
      container_after (removeCancelledTransactions cancelledTransactions c) c
  | Reset scanHeight => reset scanHeight c
  end.

(** The operations of [os], first to last. *)
Definition perform_all `{!Externals} (os : list operation) (c : SubWallets)
    : SubWallets :=
  foldl (λ c o, perform o c) c os.

(** ** Vocabulary of the further properties *)

(** Every key of [public_spend_keys] names a sub-wallet. *)
Definition keys_listed (c : SubWallets) : Prop :=
  ∀ publicKey, publicKey ∈ m_publicSpendKeys c → is_Some (m_subWallets c !! publicKey).

(** Sum of the amounts in [uint64_t] arithmetic. *)
Definition total64 (l : list TxInputAndOwner.t) : Z := total l mod UINT64_MOD.

(** A wallet with two locked (submitted, unconfirmed) transactions. *)
Definition ex_wallet_two_locked : SubWallets :=
  addUnconfirmedTransaction (ex_tx 8 0)
    (addUnconfirmedTransaction (ex_tx 7 0) ex_wallet_three_txs).

(** A stand-in for [SubWallet::getBalance]: everything spendable counts as
    unlocked, every unspent locked input as locked. *)
Definition ex_subWalletBalance (w : SubWallet.t) (currentHeight : Z) : Z * Z :=
  (foldr (λ e s, TransactionInput.amount (SubWallet.entry_input e) + s) 0
     (filter (λ e, SubWallet.spendable e = true) (SubWallet.ledger w)),
   foldr (λ e s, TransactionInput.amount (SubWallet.entry_input e) + s) 0
     (filter (λ e, SubWallet.entry_locked e = true) (SubWallet.ledger w))).

(** ** Buckets by the exact logarithm *)

(** [floor(log10(a))] for an amount [1 <= a < 10^20], in exact integer
    arithmetic (see [floor_log10_spec]). *)
Definition floor_log10 (a : Z) : Z := ilog10 20 a.

(** The candidates of [l] whose amount has [floor(log10(amount)) = b]. *)
Definition floor_bucket_members (b : Z) (l : list TxInputAndOwner.t)
    : list TxInputAndOwner.t :=
  filter (λ i, floor_log10 (amount_of i) = b) l.

(** Bucket [b] of the grouping by [floor(log10(amount))] exists among the
    candidates [l] and is full. *)
Definition full_floor_bucket `{!Externals} (b : Z) (l : list TxInputAndOwner.t)
    : Prop :=
  floor_bucket_members b l ≠ []
  ∧ FUSION_TX_MIN_INPUT_COUNT ≤ Z.of_nat (length (floor_bucket_members b l)).

(** The inputs all come from one full bucket of the grouping by
    [floor(log10(amount))]. *)
Definition from_one_full_floor_bucket `{!Externals}
    (availableInputs inputs : list TxInputAndOwner.t) : Prop :=
  ∃ b, full_floor_bucket b availableInputs
       ∧ Forall (λ i, i ∈ floor_bucket_members b availableInputs) inputs.

(** The full-bucket rule with the buckets of the specification: if some
    bucket by [floor(log10(amount))] is full, whatever the call returns comes
    from one such bucket. *)
Definition floor_bucket_rule `{!Externals}
    (shuffle : list TxInputAndOwner.t → list TxInputAndOwner.t)
    (shuffleBuckets : list (list TxInputAndOwner.t) → list (list TxInputAndOwner.t))
    (takeFromAll : bool) (keys : list PublicKey) (mixin : Z) (c : SubWallets)
    : Prop :=
  ∀ availableInputs,
    gatherInputs takeFromAll keys c = Returns availableInputs →
    (∃ b, full_floor_bucket b availableInputs) →
    ∀ inputs maxInputsToTake foundMoney,
      getFusionTransactionInputs shuffle shuffleBuckets takeFromAll keys mixin c
      = Returns (inputs, maxInputsToTake, foundMoney) →
      from_one_full_floor_bucket availableInputs inputs.

(** As [ex_externals], with room for ten inputs in a fusion transaction and
    with the logarithm as IEEE double arithmetic gives it at [10^15 - 1]:
    [log10(999999999999999)] is [15 - 4.3e-16], nearer to the double [15]
    than to the next double below it ([15 - 1.8e-15]), so [log10] returns
    [15.0] and the truncation to [int] is 15, one more than
    [floor(log10)]. *)
Definition ex_externals_double : Externals := {|
  secret_key_to_public_key := λ sk, (sk + 1000)%N;
  privateKeysToAddress := λ spend view, "SMUTfull";
  publicKeysToAddress := λ spend view, "SMUTview";
  addressToKeys := λ address, (7%N, 8%N);
  generate_key_image := λ derivation outputIndex pk sk, (derivation + pk)%N;
  scanHeightToTimestamp := λ height, 1500000000 + 30 * height;
  getApproximateMaximumInputCount := λ size ratio mixin, 10;
  FUSION_TX_MAX_SIZE := 30000;
  FUSION_TX_MIN_IN_OUT_COUNT_RATIO := 4;
  FUSION_TX_MIN_INPUT_COUNT := 4;
  log10_to_int := λ a, if decide (a = 999999999999999) then 15 else ilog10 20 a
|}.

(** A wallet with inputs of amounts [10^14], [10^14], [10^15 - 1],
    [10^15 - 1] and 5: four of them have [floor(log10) = 14]. *)
Definition ex_wallet_rounding : SubWallets :=
  foldl (λ c da,
           completeAndStoreTransactionInput (H := ex_externals_double) 1001%N
             da.1 0 (ex_input da.2) c)
    ex_wallet
    [(1%N, 100000000000000); (2%N, 100000000000000); (3%N, 999999999999999);
     (4%N, 999999999999999); (5%N, 5)].

(** The spendable inputs of [ex_wallet_rounding], in ledger order. *)
Definition ex_rounding_available : list TxInputAndOwner.t :=
  Eval vm_compute in
    match gatherInputs true [] ex_wallet_rounding with
    | Returns availableInputs => availableInputs
    | _ => []
    end.

(** What the fusion selection returns on [ex_wallet_rounding] when both
    shuffles leave the order as it is. *)
Definition ex_rounding_selected : list TxInputAndOwner.t :=
  Eval vm_compute in
    match getFusionTransactionInputs (H := ex_externals_double) id id true [] 0
            ex_wallet_rounding with
    | Returns (inputs, _, _) => inputs
    | _ => []
    end.

(** * Proofs *)

(** ** [std::remove_if] followed by a one-iterator [erase] *)

Section algorithm_facts.
Context {A : Type} (pred : A → bool) (moved : A → A).

Lemma find_if_first_match (P : list A) (m : A) (R : list A) (n : nat) :
  Forall (λ x, pred x = false) P → pred m = true →
  find_if pred (P ++ m :: R) n = (n + length P)%nat.
Proof.
  intros HP Hm. revert n.
  induction HP as [|x P Hx _ IH]; intros n; simpl.
  - rewrite Hm. lia.
  - rewrite Hx, IH. lia.
Qed.

Lemma find_if_no_match (v : list A) (n : nat) :
  Forall (λ x, pred x = false) v → find_if pred v n = (n + length v)%nat.
Proof.
  intros Hv. revert n.
  induction Hv as [|x v Hx _ IH]; intros n; simpl; [lia|].
  rewrite Hx, IH. lia.
Qed.

(** The loop, started with the kept elements [K] in front, the gap [W]
    between [result] and [first], and [R] still to read. *)
Lemma remove_if_loop_spec (R K W : list A) :
  W ≠ [] →
  remove_if_loop pred moved (length R) (K ++ W ++ R)
    (length K) (length K + length W)
  = (K ++ filter (λ x, pred x = false) R
       ++ drop (length (filter (λ x, pred x = false) R))
            (W ++ (leftover pred moved <$> R)),
     (length K + length (filter (λ x, pred x = false) R))%nat).
Proof.
  revert K W. induction R as [|x R IH]; intros K W HW.
  - simpl. rewrite !app_nil_r, Nat.add_0_r. done.
  - cbn [length remove_if_loop].
    assert ((K ++ W ++ x :: R) !! (length K + length W)%nat = Some x) as ->.
    { rewrite lookup_app_r by lia.
      replace (length K + length W - length K)%nat with (length W + 0)%nat by lia.
      by rewrite lookup_app_r, Nat.add_comm, Nat.add_sub by lia. }
    destruct (pred x) eqn:Hx.
    + specialize (IH K (W ++ [x])).
      rewrite length_app in IH. simpl in IH.
      replace (S (length K + length W)) with (length K + (length W + 1))%nat by lia.
      rewrite <- (app_assoc W [x] R) in IH. simpl in IH.
      rewrite IH by (by destruct W).
      rewrite filter_cons_False by (by rewrite Hx).
      rewrite fmap_cons. unfold leftover at 2. rewrite Hx.
      by rewrite <- (app_assoc W [x]).
    + destruct W as [|w W]; [done|].
      assert (<[(length K + length (w :: W))%nat := moved x]>
                (<[length K := x]> (K ++ (w :: W) ++ x :: R))
              = (K ++ [x]) ++ (W ++ [moved x]) ++ R) as ->.
      { rewrite insert_app_r_alt by lia. rewrite Nat.sub_diag. simpl.
        rewrite insert_app_r_alt by lia.
        replace (length K + S (length W) - length K)%nat with (S (length W)) by lia.
        simpl.
        rewrite insert_app_r_alt by lia. rewrite Nat.sub_diag. simpl.
        by rewrite <- !app_assoc. }
      specialize (IH (K ++ [x]) (W ++ [moved x])).
      rewrite !length_app in IH. simpl in IH. simpl length.
      replace (S (length K)) with (length K + 1)%nat by lia.
      replace (S (length K + S (length W)))
        with (length K + 1 + (length W + 1))%nat by lia.
      rewrite IH by (by destruct W).
      rewrite filter_cons_True by done.
      rewrite fmap_cons. unfold leftover at 2. rewrite Hx. simpl.
      rewrite <- !app_assoc. simpl.
      f_equal. lia.
Qed.

Lemma delete_head_drop (n : nat) (l : list A) :
  delete 0%nat (drop n l) = drop (S n) l.
Proof.
  revert n. induction l as [|y l IH]; intros [|n]; simpl; auto using drop_0.
Qed.

(** With a first match [m] after the unmatched prefix [P]: the idiom keeps
    [P] and the unmatched elements of the rest [R], and then whatever
    [std::remove_if] left in the tail, short of one element. *)
Lemma remove_if_then_erase_match (P : list A) (m : A) (R : list A) :
  Forall (λ x, pred x = false) P → pred m = true →
  remove_if_then_erase pred moved (P ++ m :: R)
  = P ++ filter (λ x, pred x = false) R
      ++ drop (length (filter (λ x, pred x = false) R))
           (leftover pred moved <$> R).
Proof.
  intros HP Hm. unfold remove_if_then_erase, remove_if.
  rewrite find_if_first_match by done. simpl.
  rewrite length_app. simpl.
  destruct (decide _) as [|_]; [lia|].
  replace (length P + S (length R) - S (length P))%nat with (length R) by lia.
  replace (S (length P)) with (length P + length [m])%nat by (simpl; lia).
  change (P ++ m :: R) with (P ++ [m] ++ R).
  rewrite remove_if_loop_spec by done.
  pose proof (length_filter (λ x, pred x = false) R) as Hle.
  destruct (decide _) as [_|Hend].
  - unfold erase.
    set (F := filter (λ x, pred x = false) R) in *.
    destruct (drop (length F) ([m] ++ (leftover pred moved <$> R)))
      as [|y t] eqn:Hd.
    { apply (f_equal length) in Hd.
      rewrite length_drop, length_app, length_fmap in Hd. simpl in Hd. lia. }
    apply (f_equal (delete 0%nat)) in Hd.
    rewrite delete_head_drop in Hd. simpl in Hd. subst t.
    rewrite (app_assoc P F), <- length_app.
    rewrite delete_middle. by rewrite <- app_assoc.
  - exfalso. apply Hend.
    rewrite !length_app, length_drop, length_app, length_fmap. simpl. lia.
Qed.

(** Without a match nothing moves and nothing is erased. *)
Lemma remove_if_then_erase_no_match (v : list A) :
  Forall (λ x, pred x = false) v → remove_if_then_erase pred moved v = v.
Proof.
  intros Hv. unfold remove_if_then_erase, remove_if.
  rewrite find_if_no_match by done. simpl.
  rewrite decide_True by done. by rewrite decide_False by (intros ?; done).
Qed.

(** Any vector with a match splits at its first match. *)
Lemma first_match_split (v : list A) :
  ¬ Forall (λ x, pred x = false) v →
  ∃ P m R, v = P ++ m :: R ∧ Forall (λ x, pred x = false) P ∧ pred m = true.
Proof.
  induction v as [|x v IH]; intros Hv.
  - destruct Hv. constructor.
  - destruct (pred x) eqn:Hx.
    + exists [], x, v. repeat split; [constructor | done].
    + destruct IH as (P & m & R & -> & HP & Hm).
      { intros Hall. apply Hv. by constructor. }
      exists (x :: P), m, R. repeat split; [by constructor | done].
Qed.

(** When every element from the first match on matches (the matches form
    the end of the vector), exactly the first of them is erased. *)
Lemma remove_if_then_erase_suffix (P : list A) (m : A) (R : list A) :
  Forall (λ x, pred x = false) P → pred m = true →
  Forall (λ x, pred x = true) R →
  remove_if_then_erase pred moved (P ++ m :: R) = P ++ R.
Proof.
  intros HP Hm HR. rewrite remove_if_then_erase_match by done.
  assert (filter (λ x, pred x = false) R = []) as ->.
  { induction HR as [|x R Hx _ IH]; [done|].
    rewrite filter_cons_False by (by rewrite Hx). done. }
  simpl. rewrite drop_0. f_equal.
  induction HR as [|x R Hx _ IH]; [done|].
  rewrite fmap_cons, IH. unfold leftover. by rewrite Hx.
Qed.

End algorithm_facts.

(** ** The journal *)

(** The three transactions of [ex_wallet_three_txs] are confirmed at
    heights 10, 20 and 30. *)
Example ex_wallet_three_txs_heights :
  Transaction.blockHeight <$> m_transactions ex_wallet_three_txs = [10; 20; 30].
Proof. vm_compute. reflexivity. Qed.

(** X24: when the confirmed transactions at or above the fork height are the
    last ones of the sequence (they are appended in block order), the call
    drops the first of them and keeps all the others. *)
Lemma removeForkedTransactions_suffix (forkHeight : Z) (c : SubWallets)
    (below : list Transaction.t) (tx : Transaction.t) (above : list Transaction.t) :
  m_transactions c = below ++ tx :: above →
  Forall (λ t, Transaction.blockHeight t < forkHeight) below →
  Forall (λ t, forkHeight ≤ Transaction.blockHeight t) (tx :: above) →
  m_transactions (removeForkedTransactions forkHeight c) = below ++ above.
Proof.
  intros Hc Hbelow Habove. unfold removeForkedTransactions. simpl.
  rewrite Hc. apply Forall_cons in Habove as [Htx Habove].
  apply remove_if_then_erase_suffix.
  - eapply Forall_impl; [exact Hbelow|]. intros t Ht. simpl in *.
    apply bool_decide_eq_false. lia.
  - by apply bool_decide_eq_true.
  - eapply Forall_impl; [exact Habove|]. intros t Ht. simpl in *.
    by apply bool_decide_eq_true.
Qed.

(** C1: [removeForkedTransactions(forkHeight)] is meant to remove every
    confirmed transaction whose block height is at or above the fork height.
    On the wallet with confirmed transactions at heights 10, 20 and 30 and
    fork height 20 the one-iterator [erase] removes the transaction at
    height 20 only: the one at height 30 is still confirmed afterwards. *)
Theorem removeForkedTransactions_keeps_forked :
  Transaction.blockHeight
    <$> m_transactions (removeForkedTransactions 20 ex_wallet_three_txs)
  = [10; 30]
  ∧ ¬ Forall (λ tx, Transaction.blockHeight tx < 20)
        (m_transactions (removeForkedTransactions 20 ex_wallet_three_txs)).
Proof.
  assert (Transaction.blockHeight
            <$> m_transactions (removeForkedTransactions 20 ex_wallet_three_txs)
          = [10; 30]) as Heq by (vm_compute; reflexivity).
  split; [exact Heq|].
  intros Hall.
  apply (Forall_fmap Transaction.blockHeight (λ h, h < 20)) in Hall.
  rewrite Heq in Hall.
  apply Forall_cons in Hall as [_ Hall]. apply Forall_cons in Hall as [Hlt _].
  lia.
Qed.

Lemma present_once_snoc (tx : Transaction.t) (l : list Transaction.t) :
  tx ∉ l → present_once tx (l ++ [tx]).
Proof.
  intros Hnotin. unfold present_once.
  rewrite filter_app, filter_cons_True, filter_nil by done.
  assert (filter (λ t, t = tx) l = []) as ->; [|done].
  induction l as [|y l IH]; [done|].
  apply not_elem_of_cons in Hnotin as [Hne Hl].
  rewrite filter_cons_False by congruence. auto.
Qed.

(** In a state where no locked entry carries the hash of [tx], submitting
    and then confirming [tx] restores the locked sequence and appends [tx]
    to the confirmed one. *)
Lemma addTransaction_after_unconfirmed (tx : Transaction.t) (c : SubWallets) :
  hash_absent (Transaction.hash tx) (m_lockedTransactions c) →
  addTransaction tx (addUnconfirmedTransaction tx c)
  = with_transactions c (m_transactions c ++ [tx]).
Proof.
  intros Habs. unfold addTransaction, addUnconfirmedTransaction. simpl.
  rewrite (remove_if_then_erase_suffix _ _ (m_lockedTransactions c) tx []).
  - rewrite app_nil_r. by destruct c.
  - eapply Forall_impl; [exact Habs|]. intros t Ht. simpl in *.
    apply bool_decide_eq_false. congruence.
  - by apply bool_decide_eq_true.
  - constructor.
Qed.

(** C9 (as amended): in every container state in which [tx] is not yet
    among the confirmed transactions and no locked entry carries the hash of
    [tx], [addUnconfirmedTransaction(tx)] followed by [addTransaction(tx)]
    leaves [tx] exactly once in the confirmed sequence and no entry with
    that hash in the locked sequence. *)
Theorem confirmation_collapse_fresh (tx : Transaction.t) (c : SubWallets) :
  tx ∉ m_transactions c →
  hash_absent (Transaction.hash tx) (m_lockedTransactions c) →
  confirmation_collapse tx c.
Proof.
  intros Hfresh Habs. unfold confirmation_collapse.
  rewrite addTransaction_after_unconfirmed by done. simpl.
  split; [by apply present_once_snoc | exact Habs].
Qed.

Lemma confirmation_collapse_fresh_witness :
  (ex_tx 9 40 ∉ m_transactions ex_wallet_three_txs)
  ∧ hash_absent (Transaction.hash (ex_tx 9 40))
      (m_lockedTransactions ex_wallet_three_txs)
  ∧ confirmation_collapse (ex_tx 9 40) ex_wallet_three_txs.
Proof.
  assert (ex_tx 9 40 ∉ m_transactions ex_wallet_three_txs) as Hfresh.
  { apply (bool_decide_unpack _). vm_compute. exact I. }
  assert (hash_absent (Transaction.hash (ex_tx 9 40))
            (m_lockedTransactions ex_wallet_three_txs)) as Habs.
  { vm_compute. constructor. }
  exact (conj Hfresh (conj Habs
           (confirmation_collapse_fresh (ex_tx 9 40) ex_wallet_three_txs Hfresh Habs))).
Defined.

(** C9 (counterexample): the law as stated for every state fails where [tx]
    is already confirmed: the transaction of hash 1 is confirmed in
    [ex_wallet_three_txs], and is confirmed twice after the two calls. *)
Lemma confirmation_collapse_already_confirmed :
  ¬ confirmation_collapse (ex_tx 1 10) ex_wallet_three_txs.
Proof.
  unfold confirmation_collapse, present_once. intros [Hone _].
  vm_compute in Hone. discriminate Hone.
Qed.

(** X25: where a locked entry already carries the hash of [tx], the
    one-iterator [erase] leaves the entry submitted last in the locked
    sequence: [tx] is still locked after it was submitted and confirmed. *)
Lemma addTransaction_keeps_locked_duplicate (tx : Transaction.t) (c : SubWallets) :
  ¬ hash_absent (Transaction.hash tx) (m_lockedTransactions c) →
  tx ∈ m_lockedTransactions (addTransaction tx (addUnconfirmedTransaction tx c)).
Proof.
  intros Hdup. unfold addTransaction, addUnconfirmedTransaction. simpl.
  set (pred := λ transaction : Transaction.t,
                 bool_decide (Transaction.hash tx = Transaction.hash transaction)).
  destruct (first_match_split pred (m_lockedTransactions c))
    as (P & m & R & -> & HP & Hm).
  { intros Hall. apply Hdup. eapply Forall_impl; [exact Hall|].
    intros t Ht. simpl in Ht. apply bool_decide_eq_false in Ht. congruence. }
  rewrite <- app_assoc. simpl.
  rewrite (remove_if_then_erase_match pred Transaction.moved_from P m (R ++ [tx]))
    by done.
  assert (pred tx = true) as Htx by (by apply bool_decide_eq_true).
  rewrite filter_app, filter_cons_False, filter_nil, app_nil_r
    by (by rewrite Htx).
  rewrite fmap_app. simpl. unfold leftover at 2. rewrite Htx.
  pose proof (length_filter (λ x, pred x = false) R) as Hle.
  rewrite drop_app_le by (by rewrite length_fmap).
  rewrite !elem_of_app. right. right. right. apply list_elem_of_here.
Qed.

(** ** [public_spend_keys] against the keys of [sub_wallets] *)

Section key_bookkeeping.
Context `{!Externals}.

Lemma newSubWallets_keys_consistent privateSpendKey privateViewKey address
    scanHeight newWallet now :
  keys_consistent
    (newSubWallets privateSpendKey privateViewKey address scanHeight newWallet now).
Proof.
  unfold keys_consistent, newSubWallets. simpl.
  rewrite dom_insert_L, dom_empty_L. set_solver.
Qed.

Lemma newViewSubWallets_keys_consistent privateViewKey address scanHeight
    newWallet now :
  keys_consistent
    (newViewSubWallets privateViewKey address scanHeight newWallet now).
Proof.
  unfold keys_consistent, newViewSubWallets.
  destruct (addressToKeys address) as [publicSpendKey publicViewKey]. simpl.
  rewrite dom_insert_L, dom_empty_L. set_solver.
Qed.

Lemma importSubWallet_keys_consistent privateSpendKey scanHeight newWallet now c :
  keys_consistent c →
  keys_consistent (importSubWallet privateSpendKey scanHeight newWallet now c).2.
Proof.
  unfold keys_consistent, importSubWallet. intros Hc.
  destruct (m_isViewWallet c); [done|].
  destruct (m_subWallets c !! _); [done|]. simpl.
  rewrite list_to_set_app_L, dom_insert_L, Hc. set_solver.
Qed.

Lemma importViewSubWallet_keys_consistent publicSpendKey scanHeight newWallet now c :
  keys_consistent c →
  keys_consistent (importViewSubWallet publicSpendKey scanHeight newWallet now c).2.
Proof.
  unfold keys_consistent, importViewSubWallet. intros Hc.
  destruct (m_isViewWallet c); [|done]. simpl.
  destruct (m_subWallets c !! _); [done|]. simpl.
  rewrite list_to_set_app_L, dom_insert_L, Hc. set_solver.
Qed.

(** Replacing the record stored under a key that is present leaves the key
    set alone. *)
Lemma dom_insert_present (m : gmap N SubWallet.t) (k : N) (w w' : SubWallet.t) :
  m !! k = Some w → dom (<[k := w']> m) = dom m.
Proof.
  intros Hk. rewrite dom_insert_L.
  assert (k ∈ dom m) by (apply elem_of_dom; eauto). set_solver.
Qed.

Lemma completeAndStoreTransactionInput_keys_consistent publicSpendKey
    derivation outputIndex input c :
  keys_consistent c →
  keys_consistent
    (completeAndStoreTransactionInput publicSpendKey derivation outputIndex input c).
Proof.
  unfold keys_consistent, completeAndStoreTransactionInput. intros Hc.
  destruct (m_subWallets c !! publicSpendKey) eqn:Hk; [|done]. simpl.
  by rewrite (dom_insert_present _ _ t).
Qed.

Lemma addUnconfirmedTransaction_keys_consistent tx c :
  keys_consistent c → keys_consistent (addUnconfirmedTransaction tx c).
Proof. done. Qed.

Lemma addTransaction_keys_consistent tx c :
  keys_consistent c → keys_consistent (addTransaction tx c).
Proof. done. Qed.

Lemma markInputAsSpent_keys_consistent keyImage publicKey spendHeight c c' :
  keys_consistent c →
  markInputAsSpent keyImage publicKey spendHeight c = Returns c' →
  keys_consistent c'.
Proof.
  unfold keys_consistent, markInputAsSpent, throwIfViewWallet. intros Hc.
  destruct (m_isViewWallet c); [done|]. simpl.
  destruct (m_subWallets c !! publicKey) eqn:Hk; [|done].
  intros [= <-]. simpl. by rewrite (dom_insert_present _ _ t).
Qed.

Lemma markInputAsLocked_keys_consistent keyImage publicKey c c' :
  keys_consistent c →
  markInputAsLocked keyImage publicKey c = Returns c' →
  keys_consistent c'.
Proof.
  unfold keys_consistent, markInputAsLocked, throwIfViewWallet. intros Hc.
  destruct (m_isViewWallet c); [done|]. simpl.
  destruct (m_subWallets c !! publicKey) eqn:Hk; [|done].
  intros [= <-]. simpl. by rewrite (dom_insert_present _ _ t).
Qed.

Lemma removeForkedTransactions_keys_consistent forkHeight c :
  keys_consistent c → keys_consistent (removeForkedTransactions forkHeight c).
Proof.
  unfold keys_consistent, removeForkedTransactions. simpl.
  by rewrite dom_fmap_L.
Qed.

Lemma removeCancelledTransactions_keys_consistent cancelled c c' :
  keys_consistent c →
  removeCancelledTransactions cancelled c = Returns c' →
  keys_consistent c'.
Proof.
  unfold keys_consistent, removeCancelledTransactions, throwIfViewWallet.
  intros Hc. destruct (m_isViewWallet c); [done|]. simpl.
  intros [= <-]. simpl. by rewrite dom_fmap_L.
Qed.

Lemma reset_keys_consistent scanHeight c :
  keys_consistent c → keys_consistent (reset scanHeight c).
Proof.
  unfold keys_consistent, reset. simpl. by rewrite dom_fmap_L.
Qed.

(** [addSubWallet] is the one operation that does not keep the books: on a
    full wallet, with a generated key the container does not hold yet, the
    new key enters [m_subWallets] but [m_publicSpendKeys] stays as it was. *)
Lemma addSubWallet_breaks_keys_consistent spendKey now c :
  m_isViewWallet c = false →
  keys_consistent c →
  m_subWallets c !! spendKey.1 = None →
  (addSubWallet spendKey now c).1 = SUCCESS
  ∧ m_publicSpendKeys (addSubWallet spendKey now c).2 = m_publicSpendKeys c
  ∧ ¬ keys_consistent (addSubWallet spendKey now c).2.
Proof.
  unfold keys_consistent, addSubWallet. intros -> Hc Hfresh. simpl.
  split; [done|]. split; [done|].
  rewrite dom_insert_L, Hc. intros Heq.
  assert (spendKey.1 ∈ dom (m_subWallets c)) as Hin by set_solver.
  apply elem_of_dom in Hin as [w Hw]. congruence.
Qed.

End key_bookkeeping.

(** C2: [public_spend_keys] is meant to hold the key set of [sub_wallets]
    after every operation, each of the three adding operations appending the
    new key.  [addSubWallet] has no [push_back]: on the freshly constructed
    full wallet (where the two agree), adding the generated key pair
    (55, 56) succeeds, stores the sub-wallet under key 55 and leaves
    [m_publicSpendKeys] without it. *)
Theorem addSubWallet_forgets_public_spend_key :
  keys_consistent ex_wallet
  ∧ (addSubWallet (H := ex_externals) (55%N, 56%N) 9 ex_wallet).1 = SUCCESS
  ∧ (55%N ∈ dom (m_subWallets (addSubWallet (H := ex_externals) (55%N, 56%N) 9 ex_wallet).2))
  ∧ (55%N ∉ m_publicSpendKeys (addSubWallet (H := ex_externals) (55%N, 56%N) 9 ex_wallet).2)
  ∧ ¬ keys_consistent (addSubWallet (H := ex_externals) (55%N, 56%N) 9 ex_wallet).2.
Proof.
  assert (keys_consistent ex_wallet) as Hc
    by apply (newSubWallets_keys_consistent (H := ex_externals)).
  destruct (addSubWallet_breaks_keys_consistent (H := ex_externals)
              (55%N, 56%N) 9 ex_wallet)
    as (Hok & Hkeys & Hbroken); [done | exact Hc | by vm_compute |].
  split; [exact Hc|]. split; [exact Hok|].
  split; [|split; [|exact Hbroken]].
  - apply elem_of_dom. simpl. rewrite lookup_insert_eq. eauto.
  - rewrite Hkeys. apply (bool_decide_unpack _). vm_compute. exact I.
Qed.

(** ** Storing an input for a key the container does not hold *)

(** C10: [completeAndStoreTransactionInput] called with a public spend key
    that is not a key of [sub_wallets] returns normally and leaves the whole
    container as it was. *)
Theorem completeAndStoreTransactionInput_unknown_key `{!Externals}
    (publicSpendKey : PublicKey) (derivation : KeyDerivation) (outputIndex : Z)
    (input : TransactionInput.t) (c : SubWallets) :
  m_subWallets c !! publicSpendKey = None →
  completeAndStoreTransactionInput publicSpendKey derivation outputIndex input c = c.
Proof.
  intros Hk. unfold completeAndStoreTransactionInput. by rewrite Hk.
Qed.

Lemma completeAndStoreTransactionInput_unknown_key_witness :
  m_subWallets ex_wallet_funded !! 42%N = None
  ∧ completeAndStoreTransactionInput (H := ex_externals) 42%N 5 0
      (ex_input 100) ex_wallet_funded
    = ex_wallet_funded.
Proof.
  assert (m_subWallets ex_wallet_funded !! 42%N = None) as Hk
    by (vm_compute; reflexivity).
  exact (conj Hk
    (completeAndStoreTransactionInput_unknown_key (H := ex_externals)
       42%N 5 0 (ex_input 100) ex_wallet_funded Hk)).
Defined.

(** ** The view wallet guard *)

(** C3 (as amended): on a view wallet each operation that needs a private
    spend key (both input selections, marking an input locked or spent,
    removing cancelled transactions, listing the locked hashes) ends by
    throwing [std::runtime_error] from [throwIfViewWallet], before it reads
    or changes anything; none of them returns a tagged error. *)
Theorem view_wallet_operations_throw `{!Externals} (c : SubWallets) :
  m_isViewWallet c = true →
  (∀ shuffle amount takeFromAll keys,
     getTransactionInputsForAmount shuffle amount takeFromAll keys c
     = Throws (runtime_error view_wallet_message))
  ∧ (∀ shuffle shuffleBuckets takeFromAll keys mixin,
       getFusionTransactionInputs shuffle shuffleBuckets takeFromAll keys mixin c
       = Throws (runtime_error view_wallet_message))
  ∧ (∀ keyImage publicKey,
       markInputAsLocked keyImage publicKey c
       = Throws (runtime_error view_wallet_message))
  ∧ (∀ keyImage publicKey spendHeight,
       markInputAsSpent keyImage publicKey spendHeight c
       = Throws (runtime_error view_wallet_message))
  ∧ (∀ cancelled,
       removeCancelledTransactions cancelled c
       = Throws (runtime_error view_wallet_message))
  ∧ getLockedTransactionsHashes c = Throws (runtime_error view_wallet_message).
Proof.
  intros Hview.
  unfold getTransactionInputsForAmount, getFusionTransactionInputs,
    markInputAsLocked, markInputAsSpent, removeCancelledTransactions,
    getLockedTransactionsHashes, throwIfViewWallet.
  rewrite Hview. repeat split; reflexivity.
Qed.

Lemma view_wallet_operations_throw_witness :
  m_isViewWallet ex_view_wallet = true
  ∧ getTransactionInputsForAmount id 1 true [] ex_view_wallet
    = Throws (runtime_error view_wallet_message)
  ∧ getLockedTransactionsHashes ex_view_wallet
    = Throws (runtime_error view_wallet_message).
Proof.
  assert (m_isViewWallet ex_view_wallet = true) as Hview by reflexivity.
  pose proof (view_wallet_operations_throw (H := ex_externals)
                ex_view_wallet Hview) as (Hsel & _ & _ & _ & _ & Hhashes).
  exact (conj Hview (conj (Hsel id 1 true []) Hhashes)).
Defined.

(** C3 (counterexample): the view wallet built from an address refuses
    [getTransactionInputsForAmount(1, true, {})] with a raw exception, not
    with the tagged error [ILLEGAL_VIEW_WALLET_OPERATION]. *)
Lemma view_wallet_send_raises_raw_exception :
  (∃ e, getTransactionInputsForAmount id 1 true [] ex_view_wallet = Throws e)
  ∧ getTransactionInputsForAmount id 1 true [] ex_view_wallet
    ≠ Fails ILLEGAL_VIEW_WALLET_OPERATION.
Proof.
  split; [eexists; reflexivity | discriminate].
Qed.

(** ** Standard input selection *)

Lemma add64_small (a b : Z) :
  0 ≤ a + b < UINT64_MOD → add64 a b = a + b.
Proof. intros Hab. unfold add64. by apply Z.mod_small. Qed.

Lemma total_app (l k : list TxInputAndOwner.t) :
  total (l ++ k) = total l + total k.
Proof. induction l as [|x l IH]; simpl; lia. Qed.

Lemma total_nonneg (l : list TxInputAndOwner.t) :
  Forall amount_in_range l → 0 ≤ total l.
Proof.
  induction 1 as [|x l Hx _ IH]; simpl; [lia|]. unfold amount_in_range in Hx. lia.
Qed.

Lemma total_Permutation (l k : list TxInputAndOwner.t) :
  l ≡ₚ k → total l = total k.
Proof. induction 1; simpl; lia. Qed.

(** The two lookup loops succeed when every selected key is known and its
    sub-wallet has a private spend key. *)
Lemma gatherInputs_returns (takeFromAll : bool) (keys : list PublicKey)
    (c : SubWallets) :
  selection_available takeFromAll keys c →
  ∃ availableInputs, gatherInputs takeFromAll keys c = Returns availableInputs.
Proof.
  unfold selection_available, gatherInputs.
  generalize (if takeFromAll then m_publicSpendKeys c else keys).
  intros selected Hsel.
  assert (∃ wallets,
            mapM (λ publicKey,
                    match m_subWallets c !! publicKey with
                    | Some subWallet => Returns subWallet
                    | None => Throws out_of_range
                    end) selected = Returns wallets
            ∧ Forall (λ w, is_Some (SubWallet.privateSpendKey w)) wallets)
    as (wallets & -> & Hkeys).
  { induction Hsel as [|pk selected (w & Hw & Hsk) _ (ws & IH & Hws)].
    - exists []. by split.
    - exists (w :: ws). simpl. rewrite Hw. simpl. rewrite IH. simpl.
      split; [done | by constructor]. }
  simpl.
  assert (∃ more, mapM SubWallet.getInputs wallets = Returns more)
    as (more & ->).
  { induction Hkeys as [|w wallets [sk Hsk] _ (more & IH)].
    - by exists [].
    - cbn [mapM]. rewrite IH.
      unfold SubWallet.getInputs. rewrite Hsk. simpl. eauto. }
  simpl. eauto.
Qed.

(** The loop runs dry when even all remaining inputs do not reach the
    target. *)
Lemma takeInputsForAmount_short (amount : Z) (l acc : list TxInputAndOwner.t)
    (found : Z) :
  Forall amount_in_range l → 0 ≤ found →
  found + total l < UINT64_MOD →
  found + total l < amount →
  takeInputsForAmount amount l acc found
  = Throws (invalid_argument not_enough_funds_message).
Proof.
  intros Hl. revert acc found.
  induction Hl as [|x l Hx Hl IH]; intros acc found Hfound Hfit Hshort;
    [done|].
  pose proof (total_nonneg l Hl) as Hnn.
  cbn [takeInputsForAmount total foldr] in *.
  fold (amount_of x). fold (total l) in *.
  unfold amount_in_range in Hx.
  rewrite add64_small by lia.
  rewrite decide_False by lia.
  apply IH; lia.
Qed.

(** The loop stops at the first prefix whose amounts reach the target. *)
Lemma takeInputsForAmount_enough (amount : Z) (l acc : list TxInputAndOwner.t)
    (found : Z) :
  Forall amount_in_range l → 0 ≤ found →
  found + total l < UINT64_MOD →
  l ≠ [] → amount ≤ found + total l →
  ∃ taken, taken `prefix_of` l
    ∧ takeInputsForAmount amount l acc found
      = Returns (acc ++ taken, found + total taken)
    ∧ amount ≤ found + total taken.
Proof.
  intros Hl. revert acc found.
  induction Hl as [|x l Hx Hl IH]; intros acc found Hfound Hfit Hne Henough;
    [done|].
  pose proof (total_nonneg l Hl) as Hnn.
  cbn [takeInputsForAmount total foldr] in *.
  fold (amount_of x). fold (total l) in *.
  unfold amount_in_range in Hx.
  rewrite add64_small by lia.
  destruct (decide (amount ≤ found + amount_of x)) as [Hstop|Hgo].
  - exists [x]. split; [by apply prefix_cons, prefix_nil|].
    simpl. split; [do 2 f_equal; lia | lia].
  - destruct l as [|y l]; [simpl in *; lia|].
    destruct (IH (acc ++ [x]) (found + amount_of x)) as (taken & Hpre & Hres & Hsum);
      [lia | lia | done | lia |].
    exists (x :: taken). split; [by apply prefix_cons|].
    rewrite Hres, <- app_assoc. simpl.
    split; [do 2 f_equal; lia | lia].
Qed.

(** C4 (as amended): on a full wallet whose selected keys are all known,
    with amounts in the range of [uint64_t] whose total does not overflow,
    and for every order the shuffle may produce, the standard selection
    either returns a prefix of the shuffled inputs together with the sum of
    its amounts, a sum that covers the target, or throws
    [std::invalid_argument]; and it throws exactly when the spendable total
    is below the target or there is no spendable input at all. *)
Theorem getTransactionInputsForAmount_spec
    (shuffle : list TxInputAndOwner.t → list TxInputAndOwner.t)
    (amount : Z) (takeFromAll : bool) (keys : list PublicKey) (c : SubWallets)
    (availableInputs : list TxInputAndOwner.t) :
  m_isViewWallet c = false →
  gatherInputs takeFromAll keys c = Returns availableInputs →
  (∀ l, shuffle l ≡ₚ l) →
  Forall amount_in_range availableInputs →
  total availableInputs < UINT64_MOD →
  selection_outcome shuffle amount takeFromAll keys c availableInputs.
Proof.
  intros Hfull Hgather Hshuffle Hrange Hfit. unfold selection_outcome.
  unfold getTransactionInputsForAmount, throwIfViewWallet.
  rewrite Hfull, Hgather. simpl.
  specialize (Hshuffle availableInputs).
  set (shuffled := shuffle availableInputs) in *.
  assert (Forall amount_in_range shuffled) as Hrange'
    by (by rewrite Hshuffle).
  assert (total shuffled = total availableInputs) as Htotal
    by (by apply total_Permutation).
  assert (shuffled = [] ↔ availableInputs = []) as Hnil.
  { split; intros Heq; rewrite Heq in Hshuffle.
    - symmetry in Hshuffle. by apply Permutation_nil_r in Hshuffle.
    - by apply Permutation_nil_r in Hshuffle. }
  destruct (decide (total availableInputs < amount ∨ availableInputs = []))
    as [Hshort|Henough].
  - assert (takeInputsForAmount amount shuffled [] 0
            = Throws (invalid_argument not_enough_funds_message)) as ->.
    { destruct Hshort as [Hlt|Hempty].
      - apply takeInputsForAmount_short; [done | lia | lia | lia].
      - apply Hnil in Hempty. by rewrite Hempty. }
    split; [by right | done].
  - assert (¬ total availableInputs < amount) as Hge by tauto.
    assert (availableInputs ≠ []) as Hne by tauto.
    destruct (takeInputsForAmount_enough amount shuffled [] 0)
      as (taken & Hpre & Hres & Hsum); [done | lia | lia | tauto | lia |].
    rewrite Hres. simpl. split.
    + left. exists taken, (0 + total taken).
      split; [done|]. split; [done|]. lia.
    + split; [discriminate | tauto].
Qed.

Lemma ex_available_gathered :
  gatherInputs true [] ex_wallet_funded = Returns ex_available.
Proof. vm_compute. reflexivity. Qed.

Lemma ex_available_in_range : Forall amount_in_range ex_available.
Proof.
  unfold ex_available, amount_in_range, amount_of, UINT64_MOD.
  repeat (constructor; [simpl; lia|]). constructor.
Qed.

Lemma getTransactionInputsForAmount_spec_witness :
  m_isViewWallet ex_wallet_funded = false
  ∧ gatherInputs true [] ex_wallet_funded = Returns ex_available
  ∧ (∀ l : list TxInputAndOwner.t, reverse l ≡ₚ l)
  ∧ Forall amount_in_range ex_available
  ∧ total ex_available < UINT64_MOD
  ∧ selection_outcome reverse 1000 true [] ex_wallet_funded ex_available.
Proof.
  assert (total ex_available < UINT64_MOD) as Hfit by (vm_compute; reflexivity).
  exact (conj eq_refl (conj ex_available_gathered
    (conj reverse_Permutation (conj ex_available_in_range (conj Hfit
      (getTransactionInputsForAmount_spec reverse 1000 true [] ex_wallet_funded
         ex_available eq_refl ex_available_gathered reverse_Permutation
         ex_available_in_range Hfit)))))).
Defined.

(** C4 (counterexample): on the freshly constructed full wallet, which has
    no spendable input, a target of 0 is not above the spendable total (0),
    yet the selection ends for lack of funds. *)
Lemma selection_contract_fails_on_empty_wallet :
  ¬ selection_contract id 0 true [] ex_wallet.
Proof.
  unfold selection_contract. intros [_ [Hfails _]].
  assert (spendable_total true [] ex_wallet = 0) as Htotal
    by (vm_compute; reflexivity).
  rewrite Htotal in Hfails.
  assert (0 < 0); [|lia].
  apply Hfails. right. vm_compute. reflexivity.
Qed.

(** C5 (as amended): with target 0 the loop still takes one input before it
    looks at the sum: on a full wallet whose selected keys are known the
    call returns exactly the first input of the shuffled list together with
    its amount, and throws [std::invalid_argument] when there is no
    spendable input. *)
Theorem getTransactionInputsForAmount_zero
    (shuffle : list TxInputAndOwner.t → list TxInputAndOwner.t)
    (takeFromAll : bool) (keys : list PublicKey) (c : SubWallets)
    (availableInputs : list TxInputAndOwner.t) :
  m_isViewWallet c = false →
  gatherInputs takeFromAll keys c = Returns availableInputs →
  (∀ l, shuffle l ≡ₚ l) →
  Forall amount_in_range availableInputs →
  getTransactionInputsForAmount shuffle 0 takeFromAll keys c
  = match shuffle availableInputs with
    | [] => Throws (invalid_argument not_enough_funds_message)
    | first :: _ => Returns ([first], amount_of first)
    end.
Proof.
  intros Hfull Hgather Hshuffle Hrange.
  unfold getTransactionInputsForAmount, throwIfViewWallet.
  rewrite Hfull, Hgather. simpl.
  specialize (Hshuffle availableInputs).
  rewrite <- Hshuffle in Hrange.
  destruct (shuffle availableInputs) as [|first rest]; [done|].
  apply Forall_cons in Hrange as [Hfirst _]. unfold amount_in_range in Hfirst.
  cbn [takeInputsForAmount]. fold (amount_of first).
  rewrite add64_small by lia.
  rewrite decide_True by lia. simpl. do 2 f_equal.
Qed.

Lemma getTransactionInputsForAmount_zero_witness :
  m_isViewWallet ex_wallet_funded = false
  ∧ gatherInputs true [] ex_wallet_funded = Returns ex_available
  ∧ (∀ l : list TxInputAndOwner.t, reverse l ≡ₚ l)
  ∧ Forall amount_in_range ex_available
  ∧ getTransactionInputsForAmount reverse 0 true [] ex_wallet_funded
    = match reverse ex_available with
      | [] => Throws (invalid_argument not_enough_funds_message)
      | first :: _ => Returns ([first], amount_of first)
      end.
Proof.
  exact (conj eq_refl (conj ex_available_gathered
    (conj reverse_Permutation (conj ex_available_in_range
      (getTransactionInputsForAmount_zero reverse true [] ex_wallet_funded
         ex_available eq_refl ex_available_gathered reverse_Permutation
         ex_available_in_range))))).
Defined.

(** C5 (counterexample): with target 0 the funded wallet does not get the
    empty list and sum 0 but its first input (amount 1) and sum 1, and the
    wallet without inputs gets an exception. *)
Lemma zero_target_takes_an_input :
  getTransactionInputsForAmount id 0 true [] ex_wallet_funded ≠ Returns ([], 0)
  ∧ (∃ first, getTransactionInputsForAmount id 0 true [] ex_wallet_funded
              = Returns ([first], 1))
  ∧ getTransactionInputsForAmount id 0 true [] ex_wallet
    = Throws (invalid_argument not_enough_funds_message).
Proof.
  split; [|split].
  - vm_compute. discriminate.
  - eexists. vm_compute. reflexivity.
  - vm_compute. reflexivity.
Qed.

(** ** Where to start the initial sync *)

Section min_element_facts.
Context {A : Type} (f : A → Z).

Lemma min_element_fold (v : list A) (x0 : A) :
  let r := fold_left (λ smallest y, if bool_decide (f y < f smallest)
                                    then y else smallest) v x0 in
  r ∈ x0 :: v ∧ f r ≤ f x0 ∧ ∀ y, y ∈ v → f r ≤ f y.
Proof.
  revert x0. induction v as [|y v IH]; intros x0; simpl.
  - split; [apply list_elem_of_here|]. split; [lia|].
    intros y Hy. by apply elem_of_nil in Hy.
  - destruct (IH (if bool_decide (f y < f x0) then y else x0))
      as (Hin & Hle & Hall).
    case_bool_decide as Hlt.
    + split; [by apply list_elem_of_further|]. split; [lia|].
      intros z [->|Hz]%elem_of_cons; [done | by apply Hall].
    + split.
      { apply elem_of_cons in Hin as [->|Hin]; [apply list_elem_of_here|].
        by do 2 apply list_elem_of_further. }
      split; [done|].
      intros z [->|Hz]%elem_of_cons; [lia | by apply Hall].
Qed.

(** [std::min_element] by the measure [f]: on a non-empty range it yields
    an element of the range below which no element lies. *)
Lemma min_element_least (v : list A) :
  v ≠ [] →
  ∃ x, min_element (λ a b, bool_decide (f a < f b)) v = Some x
       ∧ x ∈ v ∧ ∀ y, y ∈ v → f x ≤ f y.
Proof.
  destruct v as [|x0 v]; [done|]. intros _. simpl.
  destruct (min_element_fold v x0) as (Hin & Hle & Hall).
  eexists. split; [reflexivity|]. split; [exact Hin|].
  intros y [->|Hy]%elem_of_cons; [exact Hle | by apply Hall].
Qed.

End min_element_facts.

Lemma least_over_min_element (f : SubWallet.t → Z) (c : SubWallets) :
  m_subWallets c ≠ ∅ →
  ∃ e, min_element (λ lhs rhs : N * SubWallet.t, bool_decide (f lhs.2 < f rhs.2))
         (map_to_list (m_subWallets c)) = Some e
       ∧ least_over f c (f e.2).
Proof.
  intros Hne.
  destruct (min_element_least (λ p : N * SubWallet.t, f p.2)
              (map_to_list (m_subWallets c)))
    as ([k w] & Hmin & Hin & Hall).
  { intros Hnil. by apply map_to_list_empty_iff in Hnil. }
  exists (k, w). split; [exact Hmin|]. split.
  - exists k, w. split; [by apply elem_of_map_to_list | done].
  - intros k' w' Hk'. apply (Hall (k', w')). by apply elem_of_map_to_list.
Qed.

(** C6: for a container with at least one sub-wallet,
    [getMinInitialSyncStart] returns a pair of which at most one component
    is nonzero, namely: with [H] the least [syncStartHeight] and [T] the
    least [syncStartTimestamp] over all sub-wallets, [(H, T)] if [H = 0] or
    [T = 0], else [(H, 0)] if [scanHeightToTimestamp H < T], else
    [(0, T)]. *)
Theorem getMinInitialSyncStart_spec `{!Externals} (c : SubWallets) :
  m_subWallets c ≠ ∅ →
  ∃ H T,
    least_over SubWallet.syncStartHeight c H
    ∧ least_over SubWallet.syncStartTimestamp c T
    ∧ getMinInitialSyncStart c = Returns (sync_start_from H T)
    ∧ ((sync_start_from H T).1 = 0 ∨ (sync_start_from H T).2 = 0).
Proof.
  intros Hne. unfold getMinInitialSyncStart.
  destruct (least_over_min_element SubWallet.syncStartTimestamp c Hne)
    as (minElementByTimestamp & -> & HT).
  destruct (least_over_min_element SubWallet.syncStartHeight c Hne)
    as (minElementByHeight & -> & HH).
  exists (SubWallet.syncStartHeight minElementByHeight.2),
         (SubWallet.syncStartTimestamp minElementByTimestamp.2).
  split; [exact HH|]. split; [exact HT|].
  unfold sync_start_from. simpl.
  repeat case_decide; simpl; split; try reflexivity; tauto.
Qed.

Lemma getMinInitialSyncStart_spec_witness :
  m_subWallets ex_wallet_syncing ≠ ∅
  ∧ ∃ H T,
      least_over SubWallet.syncStartHeight ex_wallet_syncing H
      ∧ least_over SubWallet.syncStartTimestamp ex_wallet_syncing T
      ∧ getMinInitialSyncStart (H := ex_externals) ex_wallet_syncing
        = Returns (sync_start_from (H := ex_externals) H T)
      ∧ ((sync_start_from (H := ex_externals) H T).1 = 0
         ∨ (sync_start_from (H := ex_externals) H T).2 = 0).
Proof.
  assert (m_subWallets ex_wallet_syncing ≠ ∅) as Hne.
  { intros Hempty. apply (f_equal (λ m, m !! 1001%N)) in Hempty.
    vm_compute in Hempty. discriminate Hempty. }
  exact (conj Hne
    (getMinInitialSyncStart_spec (H := ex_externals) ex_wallet_syncing Hne)).
Defined.

(** On [ex_wallet_syncing] the least height is 400000, whose timestamp lies
    before the least sub-wallet timestamp: the sync starts from the height. *)
Example getMinInitialSyncStart_ex_wallet_syncing :
  getMinInitialSyncStart (H := ex_externals) ex_wallet_syncing
  = Returns (400000, 0).
Proof. vm_compute. reflexivity. Qed.

(** Without any sub-wallet the function dereferences an end iterator. *)
Lemma getMinInitialSyncStart_empty `{!Externals} (c : SubWallets) :
  m_subWallets c = ∅ → getMinInitialSyncStart c = Undefined.
Proof.
  intros Hempty. unfold getMinInitialSyncStart.
  by rewrite Hempty, map_to_list_empty.
Qed.

(** ** Fusion input selection *)

Section fusion.
Context `{!Externals}.

Lemma numberOfDigits_zero : numberOfDigits 0 = Undefined.
Proof. reflexivity. Qed.

Lemma numberOfDigits_nonzero (amount : Z) :
  amount ≠ 0 → numberOfDigits amount = Returns (log10_to_int amount).
Proof. intros Hne. unfold numberOfDigits. by rewrite decide_False. Qed.

(** The bucketing loop over candidates of nonzero amount: it returns, adds
    to every bucket the candidates of that bucket index in the order they
    come, and never makes an empty bucket. *)
Lemma fillBuckets_spec (l : list TxInputAndOwner.t)
    (m : gmap Z (list TxInputAndOwner.t)) :
  Forall (λ i, amount_of i ≠ 0) l →
  ∃ m', fillBuckets l m = Returns m'
        ∧ (∀ k, default [] (m' !! k) = default [] (m !! k) ++ bucket_members k l)
        ∧ ((∀ k b, m !! k = Some b → b ≠ []) → ∀ k b, m' !! k = Some b → b ≠ []).
Proof.
  intros Hl. revert m.
  induction Hl as [|x l Hx _ IH]; intros m.
  - exists m. split; [done|]. split; [|done].
    intros k. unfold bucket_members. by rewrite filter_nil, app_nil_r.
  - cbn [fillBuckets]. fold (amount_of x).
    rewrite numberOfDigits_nonzero by done. simpl.
    fold (bucket_index x).
    destruct (IH (<[bucket_index x :=
                      default [] (m !! bucket_index x) ++ [x]]> m))
      as (m' & -> & Hchar & Hnonempty).
    exists m'. split; [done|]. split.
    + intros k. rewrite Hchar. unfold bucket_members.
      destruct (decide (bucket_index x = k)) as [<-|Hk].
      * rewrite lookup_insert_eq. simpl.
        rewrite filter_cons_True by done. by rewrite <- app_assoc.
      * rewrite lookup_insert_ne by done.
        by rewrite filter_cons_False by done.
    + intros Hm. apply Hnonempty. intros k b.
      destruct (decide (bucket_index x = k)) as [<-|Hk].
      * rewrite lookup_insert_eq. intros [= <-].
        by destruct (default [] (m !! bucket_index x)).
      * rewrite lookup_insert_ne by done. apply Hm.
Qed.

(** The bucketing loop returns only if no candidate has amount zero. *)
Lemma fillBuckets_returns_nonzero (l : list TxInputAndOwner.t)
    (m m' : gmap Z (list TxInputAndOwner.t)) :
  fillBuckets l m = Returns m' → Forall (λ i, amount_of i ≠ 0) l.
Proof.
  revert m. induction l as [|x l IH]; intros m Hret; [constructor|].
  cbn [fillBuckets] in Hret. fold (amount_of x) in Hret.
  unfold numberOfDigits in Hret.
  destruct (decide (amount_of x = 0)) as [|Hne]; [done|].
  simpl in Hret. constructor; [done | by eapply IH].
Qed.

(** With a candidate of amount zero the loop has no defined behaviour. *)
Lemma fillBuckets_zero_amount (l : list TxInputAndOwner.t)
    (m : gmap Z (list TxInputAndOwner.t)) :
  ¬ Forall (λ i, amount_of i ≠ 0) l → fillBuckets l m = Undefined.
Proof.
  revert m. induction l as [|x l IH]; intros m Hzero.
  - destruct Hzero. constructor.
  - cbn [fillBuckets]. fold (amount_of x). unfold numberOfDigits.
    destruct (decide (amount_of x = 0)) as [|Hne]; [done|]. simpl.
    apply IH. intros Hl. apply Hzero. by constructor.
Qed.

(** C8 (as amended): the bucketing step assigns a bucket to every candidate
    whose amount is not zero: over such candidates it returns, and bucket
    [k] of the result holds exactly the candidates whose truncated [log10],
    converted to [uint64_t], is [k].  (For amount zero there is no guard:
    see [fillBuckets_zero_amount].) *)
Theorem fillBuckets_total_on_nonzero (l : list TxInputAndOwner.t) :
  Forall (λ i, amount_of i ≠ 0) l →
  ∃ buckets, fillBuckets l ∅ = Returns buckets
             ∧ ∀ k, default [] (buckets !! k) = bucket_members k l.
Proof.
  intros Hl. destruct (fillBuckets_spec l ∅ Hl) as (m' & Hret & Hchar & _).
  exists m'. split; [done|]. intros k. by rewrite Hchar, lookup_empty.
Qed.

Lemma takeFromBucket_prefix (maxInputsToTake : Z)
    (bucket acc : list TxInputAndOwner.t) (found : Z) :
  ∃ taken, (takeFromBucket maxInputsToTake bucket acc found).2.1 = acc ++ taken
           ∧ taken `prefix_of` bucket.
Proof.
  revert acc found. induction bucket as [|x bucket IH]; intros acc found.
  - exists []. simpl. by rewrite app_nil_r.
  - cbn [takeFromBucket]. case_decide.
    + exists [x]. split; [done | by apply prefix_cons, prefix_nil].
    + destruct (IH (acc ++ [x])
                  (add64 found
                     (TransactionInput.amount (TxInputAndOwner.input x))))
        as (taken & -> & Hpre).
      exists (x :: taken). split; [by rewrite <- app_assoc | by apply prefix_cons].
Qed.

(** Taking from a single bucket yields a prefix of that bucket. *)
Lemma takeFromBuckets_single (maxInputsToTake : Z)
    (bucket : list TxInputAndOwner.t) :
  (takeFromBuckets maxInputsToTake [bucket] [] 0).1 `prefix_of` bucket.
Proof.
  destruct (takeFromBucket_prefix maxInputsToTake bucket [] 0)
    as (taken & Heq & Hpre).
  cbn [takeFromBuckets].
  destruct (takeFromBucket maxInputsToTake bucket [] 0) as [[|] [inputs found]];
    simpl in *; by subst.
Qed.

Lemma bucket_members_Permutation (b : Z) (l k : list TxInputAndOwner.t) :
  l ≡ₚ k → bucket_members b l ≡ₚ bucket_members b k.
Proof. intros Hlk. unfold bucket_members. by rewrite Hlk. Qed.

Lemma full_bucket_Permutation (b : Z) (l k : list TxInputAndOwner.t) :
  l ≡ₚ k → full_bucket b l → full_bucket b k.
Proof.
  intros Hlk [Hne Hfull].
  pose proof (bucket_members_Permutation b l k Hlk) as Hperm.
  split.
  - intros Hnil. rewrite Hnil in Hperm. by apply Permutation_nil_r in Hperm.
  - by rewrite <- Hperm.
Qed.

(** Over candidates of nonzero amount, one of which lies in a full bucket,
    the fusion selection returns inputs that all come from one full
    bucket. *)
Lemma getFusionTransactionInputs_full_bucket
    (shuffle : list TxInputAndOwner.t → list TxInputAndOwner.t)
    (shuffleBuckets : list (list TxInputAndOwner.t) → list (list TxInputAndOwner.t))
    (takeFromAll : bool) (keys : list PublicKey) (mixin : Z) (c : SubWallets)
    (availableInputs : list TxInputAndOwner.t) :
  m_isViewWallet c = false →
  gatherInputs takeFromAll keys c = Returns availableInputs →
  (∀ l, shuffle l ≡ₚ l) →
  (∀ l, shuffleBuckets l ≡ₚ l) →
  Forall (λ i, amount_of i ≠ 0) availableInputs →
  (∃ b, full_bucket b availableInputs) →
  ∃ inputs foundMoney,
    getFusionTransactionInputs shuffle shuffleBuckets takeFromAll keys mixin c
    = Returns (inputs,
               getApproximateMaximumInputCount FUSION_TX_MAX_SIZE
                 FUSION_TX_MIN_IN_OUT_COUNT_RATIO mixin,
               foundMoney)
    ∧ from_one_full_bucket availableInputs inputs.
Proof.
  intros Hfull Hgather Hshuffle Hshuffle2 Hnonzero [b0 Hb0].
  unfold getFusionTransactionInputs, throwIfViewWallet.
  rewrite Hfull, Hgather. simpl.
  specialize (Hshuffle availableInputs).
  set (shuffled := shuffle availableInputs) in *.
  assert (Forall (λ i, amount_of i ≠ 0) shuffled) as Hnonzero'
    by (by rewrite Hshuffle).
  destruct (fillBuckets_spec shuffled ∅ Hnonzero')
    as (buckets & -> & Hchar & Hnonempty).
  simpl.
  assert (∀ k bucket, buckets !! k = Some bucket
                      → bucket = bucket_members k shuffled ∧ bucket ≠ [])
    as Hbucket.
  { intros k bucket Hk. split.
    - specialize (Hchar k). rewrite Hk, lookup_empty in Hchar. done.
    - eapply Hnonempty; [|exact Hk]. intros k' b'. by rewrite lookup_empty. }
  set (fullBuckets :=
         filter (λ bucket, FUSION_TX_MIN_INPUT_COUNT ≤ Z.of_nat (length bucket))
           ((map_to_list buckets).*2)).
  assert (∀ bucket, bucket ∈ fullBuckets
                    → ∃ k, bucket = bucket_members k shuffled
                           ∧ full_bucket k shuffled) as Hfulls.
  { intros bucket [Hlen Hin]%list_elem_of_filter.
    apply list_elem_of_fmap in Hin as ([k bucket'] & -> & Hin).
    apply elem_of_map_to_list in Hin. simpl in *.
    destruct (Hbucket k bucket' Hin) as [-> Hne].
    exists k. split; [done|]. by split. }
  assert (fullBuckets ≠ []) as Hsome.
  { apply (full_bucket_Permutation b0 _ shuffled) in Hb0; [|done].
    destruct Hb0 as [Hne Hlen].
    assert (buckets !! b0 = Some (bucket_members b0 shuffled)) as Hb0.
    { specialize (Hchar b0). rewrite lookup_empty in Hchar. simpl in Hchar.
      destruct (buckets !! b0) as [bucket|]; simpl in Hchar; [by subst|].
      by rewrite <- Hchar in Hne. }
    assert (bucket_members b0 shuffled ∈ fullBuckets) as Hin.
    { apply list_elem_of_filter. split; [done|].
      apply list_elem_of_fmap. exists (b0, bucket_members b0 shuffled).
      split; [done|]. by apply elem_of_map_to_list. }
    intros Hnil. rewrite Hnil in Hin. by apply elem_of_nil in Hin. }
  specialize (Hshuffle2 fullBuckets).
  destruct (shuffleBuckets fullBuckets) as [|front rest] eqn:Hfront.
  { symmetry in Hshuffle2. by apply Permutation_nil_r in Hshuffle2. }
  assert (front ∈ fullBuckets) as Hin.
  { rewrite <- Hshuffle2. apply list_elem_of_here. }
  destruct (Hfulls front Hin) as (k & -> & Hk).
  pose proof (takeFromBuckets_single
                (getApproximateMaximumInputCount FUSION_TX_MAX_SIZE
                   FUSION_TX_MIN_IN_OUT_COUNT_RATIO mixin)
                (bucket_members k shuffled)) as Hpre.
  destruct (takeFromBuckets _ [bucket_members k shuffled] [] 0)
    as [inputs foundMoney].
  simpl in Hpre. exists inputs, foundMoney. split; [done|].
  exists k. split.
  - apply (full_bucket_Permutation k shuffled); [done | exact Hk].
  - apply Forall_forall. intros i Hi.
    rewrite <- (bucket_members_Permutation k shuffled availableInputs Hshuffle).
    destruct Hpre as [rest' ->]. apply elem_of_app. by left.
Qed.

(** X27: on a full wallet, whatever the two shuffles produce, if some bucket
    of the code's own grouping (candidates grouped by the truncated
    floating-point [log10] of their amount, which is not always
    [floor(log10(amount))]) holds at least [FUSION_TX_MIN_INPUT_COUNT]
    members then every input [getFusionTransactionInputs] returns belongs to
    one and the same full bucket of that grouping; and the call does return
    when no candidate has amount zero. *)
Theorem getFusionTransactionInputs_one_full_bucket
    (shuffle : list TxInputAndOwner.t → list TxInputAndOwner.t)
    (shuffleBuckets : list (list TxInputAndOwner.t) → list (list TxInputAndOwner.t))
    (takeFromAll : bool) (keys : list PublicKey) (mixin : Z) (c : SubWallets)
    (availableInputs : list TxInputAndOwner.t) :
  m_isViewWallet c = false →
  gatherInputs takeFromAll keys c = Returns availableInputs →
  (∀ l, shuffle l ≡ₚ l) →
  (∀ l, shuffleBuckets l ≡ₚ l) →
  (∃ b, full_bucket b availableInputs) →
  (∀ inputs maxInputsToTake foundMoney,
     getFusionTransactionInputs shuffle shuffleBuckets takeFromAll keys mixin c
     = Returns (inputs, maxInputsToTake, foundMoney) →
     from_one_full_bucket availableInputs inputs)
  ∧ (Forall (λ i, amount_of i ≠ 0) availableInputs →
     ∃ inputs maxInputsToTake foundMoney,
       getFusionTransactionInputs shuffle shuffleBuckets takeFromAll keys mixin c
       = Returns (inputs, maxInputsToTake, foundMoney)).
Proof.
  intros Hfull Hgather Hshuffle Hshuffle2 Hb. split.
  - intros inputs maxInputsToTake foundMoney Hret.
    assert (Forall (λ i, amount_of i ≠ 0) availableInputs) as Hnonzero.
    { rewrite <- (Hshuffle availableInputs).
      unfold getFusionTransactionInputs, throwIfViewWallet in Hret.
      rewrite Hfull, Hgather in Hret. simpl in Hret.
      destruct (fillBuckets (shuffle availableInputs) ∅) as [buckets| | |] eqn:Hfill;
        try done.
      by eapply fillBuckets_returns_nonzero. }
    destruct (getFusionTransactionInputs_full_bucket shuffle shuffleBuckets
                takeFromAll keys mixin c availableInputs)
      as (inputs' & foundMoney' & Hret' & Hfrom); try done.
    rewrite Hret in Hret'. by injection Hret' as -> _ _.
  - intros Hnonzero.
    destruct (getFusionTransactionInputs_full_bucket shuffle shuffleBuckets
                takeFromAll keys mixin c availableInputs)
      as (inputs & foundMoney & Hret & _); try done.
    eauto.
Qed.

End fusion.

Lemma ex_available_nonzero : Forall (λ i, amount_of i ≠ 0) ex_available.
Proof.
  unfold ex_available, amount_of.
  repeat (constructor; [simpl; lia|]). constructor.
Qed.

(** The buckets of the scenario: amounts 1, 2, 5, 7 under index 0, amounts
    20, 50, 80, 80 under index 1 and 100, 600, 700 under index 2. *)
Example ex_available_buckets :
  (λ b, amount_of <$> bucket_members (H := ex_externals) b ex_available)
    <$> [0; 1; 2; 3]
  = [[1; 2; 5; 7]; [20; 50; 80; 80]; [100; 600; 700]; []].
Proof. vm_compute. reflexivity. Qed.

Lemma ex_available_full_bucket :
  ∃ b, full_bucket (H := ex_externals) b ex_available.
Proof.
  exists 0. split.
  - vm_compute. discriminate.
  - apply (bool_decide_unpack _). vm_compute. exact I.
Qed.

Lemma getFusionTransactionInputs_one_full_bucket_witness :
  m_isViewWallet ex_wallet_funded = false
  ∧ gatherInputs true [] ex_wallet_funded = Returns ex_available
  ∧ (∀ l : list TxInputAndOwner.t, reverse l ≡ₚ l)
  ∧ (∀ l : list (list TxInputAndOwner.t), reverse l ≡ₚ l)
  ∧ (∃ b, full_bucket (H := ex_externals) b ex_available)
  ∧ (∀ inputs maxInputsToTake foundMoney,
       getFusionTransactionInputs (H := ex_externals) reverse reverse true [] 0
         ex_wallet_funded
       = Returns (inputs, maxInputsToTake, foundMoney) →
       from_one_full_bucket (H := ex_externals) ex_available inputs)
  ∧ (Forall (λ i, amount_of i ≠ 0) ex_available →
     ∃ inputs maxInputsToTake foundMoney,
       getFusionTransactionInputs (H := ex_externals) reverse reverse true [] 0
         ex_wallet_funded
       = Returns (inputs, maxInputsToTake, foundMoney)).
Proof.
  exact (conj eq_refl (conj ex_available_gathered
    (conj reverse_Permutation (conj reverse_Permutation
      (conj ex_available_full_bucket
        (getFusionTransactionInputs_one_full_bucket (H := ex_externals)
           reverse reverse true [] 0 ex_wallet_funded ex_available
           eq_refl ex_available_gathered reverse_Permutation
           reverse_Permutation ex_available_full_bucket)))))).
Defined.

(** With the inputs reversed by both shuffles and room for three inputs, the
    scenario wallet gives the amounts 7, 5 and 2 of bucket 0. *)
Example getFusionTransactionInputs_ex_wallet_funded :
  match getFusionTransactionInputs (H := ex_externals) reverse reverse true [] 0
          ex_wallet_funded with
  | Returns (inputs, maxInputsToTake, foundMoney) =>
      (amount_of <$> inputs, maxInputsToTake, foundMoney)
  | _ => ([], 0, 0)
  end = ([7; 5; 2], 3, 14).
Proof. vm_compute. reflexivity. Qed.

Lemma fillBuckets_total_on_nonzero_witness :
  Forall (λ i, amount_of i ≠ 0) ex_available
  ∧ ∃ buckets,
      fillBuckets (H := ex_externals) ex_available ∅ = Returns buckets
      ∧ ∀ k, default [] (buckets !! k)
             = bucket_members (H := ex_externals) k ex_available.
Proof.
  exact (conj ex_available_nonzero
    (fillBuckets_total_on_nonzero (H := ex_externals) ex_available
       ex_available_nonzero)).
Defined.

(** C8 (counterexample): a candidate of amount zero is not filed under
    bucket 0; the bucketing step has no defined result for it. *)
Lemma zero_amount_is_not_bucketed :
  amount_of ex_zero_candidate = 0
  ∧ ¬ bucketing_guards_zero (H := ex_externals) ex_zero_candidate.
Proof.
  split; [reflexivity|].
  intros (buckets & Hret & _). vm_compute in Hret. discriminate Hret.
Qed.

(** The wallet whose only input has amount zero offers that candidate, and
    the fusion selection over it has no defined result. *)
Example getFusionTransactionInputs_ex_wallet_zero :
  gatherInputs true [] ex_wallet_zero = Returns [ex_zero_candidate]
  ∧ getFusionTransactionInputs (H := ex_externals) id id true [] 0 ex_wallet_zero
    = Undefined.
Proof. split; vm_compute; reflexivity. Qed.

(** * Further properties of the container *)

(** ** Importing sub-wallets *)

(** X1: [importSubWallet] answers [ILLEGAL_VIEW_WALLET_OPERATION] exactly on
    a view wallet, [SUBWALLET_ALREADY_EXISTS] exactly on a full wallet that
    holds the derived public spend key already, and [SUCCESS] exactly on a
    full wallet that does not; whenever the answer is not [SUCCESS] the
    container is left as it was. *)
Theorem importSubWallet_answer `{!Externals} (privateSpendKey : SecretKey)
    (scanHeight : Z) (newWallet : bool) (now : Z) (c : SubWallets) :
  ((importSubWallet privateSpendKey scanHeight newWallet now c).1
   = ILLEGAL_VIEW_WALLET_OPERATION ↔ m_isViewWallet c = true)
  ∧ ((importSubWallet privateSpendKey scanHeight newWallet now c).1
     = SUBWALLET_ALREADY_EXISTS
     ↔ m_isViewWallet c = false
       ∧ is_Some (m_subWallets c !! secret_key_to_public_key privateSpendKey))
  ∧ ((importSubWallet privateSpendKey scanHeight newWallet now c).1 = SUCCESS
     ↔ m_isViewWallet c = false
       ∧ m_subWallets c !! secret_key_to_public_key privateSpendKey = None)
  ∧ ((importSubWallet privateSpendKey scanHeight newWallet now c).1 ≠ SUCCESS
     → (importSubWallet privateSpendKey scanHeight newWallet now c).2 = c).
Proof.
  unfold importSubWallet.
  destruct (m_isViewWallet c); simpl.
  { repeat split; try done; by intros []. }
  destruct (m_subWallets c !! secret_key_to_public_key privateSpendKey) eqn:Hk;
    simpl.
  - repeat split; try done; eauto. by intros [_ ?].
  - repeat split; try done. intros [_ []]. done.
Qed.

(** X2: a successful [importSubWallet] stores, under the derived public
    spend key, a sub-wallet that is not primary, owns no input, carries the
    given scan height and the timestamp [now] only for a new wallet; it
    appends the key to [m_publicSpendKeys] and leaves every other sub-wallet
    and both transaction sequences alone. *)
Theorem importSubWallet_stores `{!Externals} (privateSpendKey : SecretKey)
    (scanHeight : Z) (newWallet : bool) (now : Z) (c : SubWallets) :
  (importSubWallet privateSpendKey scanHeight newWallet now c).1 = SUCCESS →
  m_subWallets (importSubWallet privateSpendKey scanHeight newWallet now c).2
    !! secret_key_to_public_key privateSpendKey
  = Some (SubWallet.mk (secret_key_to_public_key privateSpendKey)
            (Some privateSpendKey)
            (privateKeysToAddress privateSpendKey (m_privateViewKey c))
            scanHeight (if newWallet then now else 0) false [])
  ∧ (∀ publicKey, publicKey ≠ secret_key_to_public_key privateSpendKey →
       m_subWallets (importSubWallet privateSpendKey scanHeight newWallet now c).2
         !! publicKey
       = m_subWallets c !! publicKey)
  ∧ m_publicSpendKeys (importSubWallet privateSpendKey scanHeight newWallet now c).2
    = m_publicSpendKeys c ++ [secret_key_to_public_key privateSpendKey]
  ∧ m_transactions (importSubWallet privateSpendKey scanHeight newWallet now c).2
    = m_transactions c
  ∧ m_lockedTransactions (importSubWallet privateSpendKey scanHeight newWallet now c).2
    = m_lockedTransactions c.
Proof.
  unfold importSubWallet.
  destruct (m_isViewWallet c); simpl; [done|].
  destruct (m_subWallets c !! secret_key_to_public_key privateSpendKey) eqn:Hk;
    simpl; [done|].
  intros _. split; [by rewrite lookup_insert_eq|].
  split; [|done]. intros publicKey Hne. by rewrite lookup_insert_ne.
Qed.

Lemma importSubWallet_stores_witness :
  (importSubWallet (H := ex_externals) 5 500000 true 1530000000 ex_wallet).1
  = SUCCESS
  ∧ m_subWallets
      (importSubWallet (H := ex_externals) 5 500000 true 1530000000 ex_wallet).2
      !! 1005%N
    = Some (SubWallet.mk 1005%N (Some 5%N) "SMUTfull" 500000 1530000000 false []).
Proof.
  assert ((importSubWallet (H := ex_externals) 5 500000 true 1530000000
             ex_wallet).1 = SUCCESS) as Hok by reflexivity.
  exact (conj Hok
    (proj1 (importSubWallet_stores (H := ex_externals) 5 500000 true
              1530000000 ex_wallet Hok))).
Defined.

(** X3: importing the same private spend key a second time, with whatever
    scan height and timestamp, is refused with [SUBWALLET_ALREADY_EXISTS]
    and changes nothing. *)
Theorem importSubWallet_twice `{!Externals} (privateSpendKey : SecretKey)
    (scanHeight scanHeight' : Z) (newWallet newWallet' : bool) (now now' : Z)
    (c : SubWallets) :
  (importSubWallet privateSpendKey scanHeight newWallet now c).1 = SUCCESS →
  importSubWallet privateSpendKey scanHeight' newWallet' now'
    (importSubWallet privateSpendKey scanHeight newWallet now c).2
  = (SUBWALLET_ALREADY_EXISTS,
     (importSubWallet privateSpendKey scanHeight newWallet now c).2).
Proof.
  unfold importSubWallet at 1 3 4.
  destruct (m_isViewWallet c) eqn:Hview; simpl; [done|].
  destruct (m_subWallets c !! secret_key_to_public_key privateSpendKey) eqn:Hk;
    simpl; [done|].
  intros _. unfold importSubWallet. simpl. rewrite Hview.
  by rewrite lookup_insert_eq.
Qed.

Lemma importSubWallet_twice_witness :
  (importSubWallet (H := ex_externals) 5 500000 true 1530000000 ex_wallet).1
  = SUCCESS
  ∧ importSubWallet (H := ex_externals) 5 0 false 0
      (importSubWallet (H := ex_externals) 5 500000 true 1530000000 ex_wallet).2
    = (SUBWALLET_ALREADY_EXISTS,
       (importSubWallet (H := ex_externals) 5 500000 true 1530000000 ex_wallet).2).
Proof.
  assert ((importSubWallet (H := ex_externals) 5 500000 true 1530000000
             ex_wallet).1 = SUCCESS) as Hok by reflexivity.
  exact (conj Hok
    (importSubWallet_twice (H := ex_externals) 5 500000 0 true false
       1530000000 0 ex_wallet Hok)).
Defined.

(** X4: [importViewSubWallet] answers [ILLEGAL_NON_VIEW_WALLET_OPERATION]
    exactly on a full wallet and [SUBWALLET_ALREADY_EXISTS] exactly on a view
    wallet that holds the key already, leaving the container as it was in
    both cases; otherwise it answers [SUCCESS], stores a sub-wallet without
    private spend key that is not primary, and appends the key to
    [m_publicSpendKeys]. *)
Theorem importViewSubWallet_answer `{!Externals} (publicSpendKey : PublicKey)
    (scanHeight : Z) (newWallet : bool) (now : Z) (c : SubWallets) :
  ((importViewSubWallet publicSpendKey scanHeight newWallet now c).1
   = ILLEGAL_NON_VIEW_WALLET_OPERATION ↔ m_isViewWallet c = false)
  ∧ ((importViewSubWallet publicSpendKey scanHeight newWallet now c).1
     = SUBWALLET_ALREADY_EXISTS
     ↔ m_isViewWallet c = true ∧ is_Some (m_subWallets c !! publicSpendKey))
  ∧ ((importViewSubWallet publicSpendKey scanHeight newWallet now c).1 ≠ SUCCESS
     → (importViewSubWallet publicSpendKey scanHeight newWallet now c).2 = c)
  ∧ ((importViewSubWallet publicSpendKey scanHeight newWallet now c).1 = SUCCESS
     → m_subWallets (importViewSubWallet publicSpendKey scanHeight newWallet now c).2
         !! publicSpendKey
       = Some (SubWallet.mk publicSpendKey None
                 (publicKeysToAddress publicSpendKey
                    (secret_key_to_public_key (m_privateViewKey c)))
                 scanHeight (if newWallet then now else 0) false [])
       ∧ m_publicSpendKeys
           (importViewSubWallet publicSpendKey scanHeight newWallet now c).2
         = m_publicSpendKeys c ++ [publicSpendKey]).
Proof.
  unfold importViewSubWallet.
  destruct (m_isViewWallet c); simpl.
  2: { repeat split; try done; by intros []. }
  destruct (m_subWallets c !! publicSpendKey) eqn:Hk; simpl.
  - repeat split; try done; eauto.
  - repeat split; try done.
    + by intros [_ []].
    + by rewrite lookup_insert_eq.
Qed.

(** ** What no sequence of operations changes *)

Section sequences.
Context `{!Externals}.

Lemma keys_listed_subseteq (c : SubWallets) :
  keys_listed c
  ↔ list_to_set (m_publicSpendKeys c) ⊆@{gset N} dom (m_subWallets c).
Proof.
  unfold keys_listed. split.
  - intros Hc k Hk. apply elem_of_list_to_set in Hk.
    apply elem_of_dom. by apply Hc.
  - intros Hc k Hk. apply elem_of_dom, Hc. by apply elem_of_list_to_set.
Qed.

Ltac unfold_operations :=
  unfold perform, container_after, addSubWallet, importSubWallet,
    importViewSubWallet, addUnconfirmedTransaction, addTransaction,
    completeAndStoreTransactionInput, markInputAsSpent, markInputAsLocked,
    removeForkedTransactions, removeCancelledTransactions, reset,
    throwIfViewWallet.

(** One operation never removes a sub-wallet key and only appends to
    [m_publicSpendKeys]; it keeps the view flag and the view key. *)
Lemma perform_frame (o : operation) (c : SubWallets) :
  dom (m_subWallets c) ⊆ dom (m_subWallets (perform o c))
  ∧ m_publicSpendKeys c `prefix_of` m_publicSpendKeys (perform o c)
  ∧ m_isViewWallet (perform o c) = m_isViewWallet c
  ∧ m_privateViewKey (perform o c) = m_privateViewKey c.
Proof.
  destruct o; unfold_operations; unfold mret, outcome_ret; simpl;
    repeat (case_match; simplify_eq/=);
    rewrite ?dom_insert_L, ?dom_fmap_L;
    (split; [set_solver|]);
    (split; [first [reflexivity | by eexists]|]);
    by split.
Qed.

Lemma perform_keys_listed (o : operation) (c : SubWallets) :
  keys_listed c → keys_listed (perform o c).
Proof.
  rewrite !keys_listed_subseteq.
  destruct o; unfold_operations; unfold mret, outcome_ret; simpl;
    repeat (case_match; simplify_eq/=);
    rewrite ?dom_insert_L, ?dom_fmap_L, ?list_to_set_app_L;
    set_solver.
Qed.

Lemma perform_all_snoc (os : list operation) (o : operation) (c : SubWallets) :
  perform_all (os ++ [o]) c = perform o (perform_all os c).
Proof. unfold perform_all. by rewrite foldl_app. Qed.

Lemma perform_all_keys_listed (os : list operation) (c : SubWallets) :
  keys_listed c → keys_listed (perform_all os c).
Proof.
  intros Hc. induction os as [|o os IH] using rev_ind; [done|].
  rewrite perform_all_snoc. by apply perform_keys_listed.
Qed.

Lemma newSubWallets_keys_listed privateSpendKey privateViewKey address
    scanHeight newWallet now :
  keys_listed
    (newSubWallets privateSpendKey privateViewKey address scanHeight newWallet now).
Proof.
  intros k Hk. simpl in *. apply list_elem_of_singleton in Hk as ->.
  rewrite lookup_insert_eq. eauto.
Qed.

Lemma newViewSubWallets_keys_listed privateViewKey address scanHeight
    newWallet now :
  keys_listed (newViewSubWallets privateViewKey address scanHeight newWallet now).
Proof.
  unfold newViewSubWallets. destruct (addressToKeys address) as [pk vk].
  intros k Hk. simpl in *. apply list_elem_of_singleton in Hk as ->.
  rewrite lookup_insert_eq. eauto.
Qed.

(** X5: after either constructor and any sequence of operations, every key
    of [m_publicSpendKeys] names a sub-wallet of [m_subWallets] (the
    converse can fail, see [addSubWallet]). *)
Theorem public_spend_keys_always_known (os : list operation)
    (privateSpendKey privateViewKey : SecretKey) (address : string)
    (scanHeight : Z) (newWallet : bool) (now : Z) :
  keys_listed
    (perform_all os
       (newSubWallets privateSpendKey privateViewKey address scanHeight
          newWallet now))
  ∧ keys_listed
      (perform_all os
         (newViewSubWallets privateViewKey address scanHeight newWallet now)).
Proof.
  split; apply perform_all_keys_listed.
  - apply newSubWallets_keys_listed.
  - apply newViewSubWallets_keys_listed.
Qed.

(** X6: no sequence of operations removes a sub-wallet, takes a key out of
    [m_publicSpendKeys] or reorders it, turns a full wallet into a view
    wallet or back, or changes the private view key. *)
Theorem operations_keep_wallets_and_view (os : list operation) (c : SubWallets) :
  dom (m_subWallets c) ⊆ dom (m_subWallets (perform_all os c))
  ∧ m_publicSpendKeys c `prefix_of` m_publicSpendKeys (perform_all os c)
  ∧ m_isViewWallet (perform_all os c) = m_isViewWallet c
  ∧ m_privateViewKey (perform_all os c) = m_privateViewKey c.
Proof.
  induction os as [|o os (Hdom & Hkeys & Hview & Hkey)] using rev_ind; [done|].
  rewrite perform_all_snoc.
  destruct (perform_frame o (perform_all os c)) as (Hdom' & Hkeys' & -> & ->).
  split; [set_solver|]. split; [by etrans|]. done.
Qed.

End sequences.

(** ** Balances *)

Section balances.
Context (subWalletBalance : SubWallet.t → Z → Z * Z) (currentHeight : Z).

Lemma add64_range (a b : Z) : 0 ≤ add64 a b < UINT64_MOD.
Proof. unfold add64, UINT64_MOD. apply Z.mod_pos_bound. lia. Qed.

Lemma add64_mod_l (a b : Z) : add64 (a mod UINT64_MOD) b = add64 a b.
Proof.
  unfold add64. rewrite Zplus_mod_idemp_l. done.
Qed.

Lemma add64_assoc (a b c : Z) : add64 (add64 a b) c = add64 a (add64 b c).
Proof.
  unfold add64. rewrite Zplus_mod_idemp_l, Zplus_mod_idemp_r.
  f_equal. lia.
Qed.

Lemma sumBalances_unknown (keys : list PublicKey) (c : SubWallets) (u k : Z) :
  ¬ Forall (λ pubKey, is_Some (m_subWallets c !! pubKey)) keys →
  sumBalances subWalletBalance currentHeight keys c u k = Throws out_of_range.
Proof.
  revert u k. induction keys as [|pubKey keys IH]; intros u k Hunknown.
  - destruct Hunknown. constructor.
  - simpl. destruct (m_subWallets c !! pubKey) as [w|] eqn:Hw; [|done].
    destruct (subWalletBalance w currentHeight) as [unlocked locked].
    apply IH. intros Hall. apply Hunknown. constructor; [eauto | done].
Qed.

(** From running sums in range, the loop over [l1 ++ l2] is the loop over
    [l1] followed by the loop over [l2]. *)
Lemma sumBalances_app (l1 l2 : list PublicKey) (c : SubWallets) (u k : Z) :
  sumBalances subWalletBalance currentHeight (l1 ++ l2) c u k
  = '(u', k') ← sumBalances subWalletBalance currentHeight l1 c u k;
    sumBalances subWalletBalance currentHeight l2 c u' k'.
Proof.
  revert u k. induction l1 as [|pubKey l1 IH]; intros u k; [done|].
  simpl. destruct (m_subWallets c !! pubKey) as [w|]; [|done].
  destruct (subWalletBalance w currentHeight) as [unlocked locked].
  apply IH.
Qed.

(** Starting the loop from running sums [(u, k)] in range adds them to what
    the loop yields from zero. *)
Lemma sumBalances_from (keys : list PublicKey) (c : SubWallets) (u k : Z) :
  0 ≤ u < UINT64_MOD → 0 ≤ k < UINT64_MOD →
  sumBalances subWalletBalance currentHeight keys c u k
  = '(u', k') ← sumBalances subWalletBalance currentHeight keys c 0 0;
    mret (add64 u u', add64 k k').
Proof.
  revert u k. induction keys as [|pubKey keys IH]; intros u k Hu Hk.
  - simpl. unfold mret, outcome_ret, add64.
    rewrite !Z.add_0_r, !Z.mod_small by done. done.
  - simpl. destruct (m_subWallets c !! pubKey) as [w|]; [|done].
    destruct (subWalletBalance w currentHeight) as [unlocked locked].
    rewrite (IH (add64 u unlocked) (add64 k locked)) by apply add64_range.
    rewrite (IH (add64 0 unlocked) (add64 0 locked)) by apply add64_range.
    destruct (sumBalances subWalletBalance currentHeight keys c 0 0)
      as [[u' k']| | |]; simpl; try done.
    unfold mret, outcome_ret.
    change (add64 0 unlocked) with (unlocked mod UINT64_MOD).
    change (add64 0 locked) with (locked mod UINT64_MOD).
    by rewrite !add64_mod_l, !add64_assoc.
Qed.

Lemma sumBalances_known (keys : list PublicKey) (c : SubWallets) (u k : Z) :
  Forall (λ pubKey, is_Some (m_subWallets c !! pubKey)) keys →
  ∃ r, sumBalances subWalletBalance currentHeight keys c u k = Returns r.
Proof.
  intros Hkeys. revert u k.
  induction Hkeys as [|pubKey keys [w Hw] _ IH]; intros u k; [by eexists|].
  simpl. rewrite Hw. destruct (subWalletBalance w currentHeight). apply IH.
Qed.

(** X7: [getBalance] returns exactly when every selected public key names a
    sub-wallet, the selected keys being [m_publicSpendKeys] under
    [takeFromAll] and the given list otherwise; with an unknown key among
    them it throws [std::out_of_range]. *)
Theorem getBalance_known_keys (keys : list PublicKey) (takeFromAll : bool)
    (c : SubWallets) :
  (Forall (λ pubKey, is_Some (m_subWallets c !! pubKey))
     (if takeFromAll then m_publicSpendKeys c else keys)
   → ∃ r, getBalance subWalletBalance keys takeFromAll currentHeight c = Returns r)
  ∧ (¬ Forall (λ pubKey, is_Some (m_subWallets c !! pubKey))
         (if takeFromAll then m_publicSpendKeys c else keys)
     → getBalance subWalletBalance keys takeFromAll currentHeight c
       = Throws out_of_range).
Proof.
  unfold getBalance. split.
  - apply sumBalances_known.
  - apply sumBalances_unknown.
Qed.

(** X8: the balance over two lists of keys one after the other is the
    balance over the first plus the balance over the second, added in
    [uint64_t] arithmetic; it fails as soon as one of the two fails (a key
    listed twice is counted twice). *)
Theorem getBalance_app (l1 l2 : list PublicKey) (c : SubWallets) :
  getBalance subWalletBalance (l1 ++ l2) false currentHeight c
  = '(u1, k1) ← getBalance subWalletBalance l1 false currentHeight c;
    '(u2, k2) ← getBalance subWalletBalance l2 false currentHeight c;
    mret (add64 u1 u2, add64 k1 k2).
Proof.
  unfold getBalance. rewrite sumBalances_app.
  destruct (sumBalances subWalletBalance currentHeight l1 c 0 0)
    as [[u1 k1]| | |] eqn:H1; simpl; try done.
  assert (0 ≤ u1 < UINT64_MOD ∧ 0 ≤ k1 < UINT64_MOD) as [Hu Hk].
  { destruct l1 as [|pubKey l1].
    - simpl in H1. injection H1 as <- <-. unfold UINT64_MOD. lia.
    - simpl in H1. destruct (m_subWallets c !! pubKey) as [w|]; [|done].
      destruct (subWalletBalance w currentHeight) as [unlocked locked].
      rewrite sumBalances_from in H1 by apply add64_range.
      destruct (sumBalances subWalletBalance currentHeight l1 c 0 0)
        as [[u' k']| | |]; simpl in H1; try done.
      injection H1 as <- <-. split; apply add64_range. }
  by rewrite sumBalances_from.
Qed.

End balances.

(** X9: after either constructor and any sequence of operations,
    [getBalance] with [takeFromAll] returns a pair of balances; it cannot
    throw [std::out_of_range], whatever list of keys is passed along. *)
Theorem getBalance_take_from_all_returns `{!Externals}
    (subWalletBalance : SubWallet.t → Z → Z * Z) (currentHeight : Z)
    (keys : list PublicKey) (os : list operation)
    (privateSpendKey privateViewKey : SecretKey) (address : string)
    (scanHeight : Z) (newWallet : bool) (now : Z) :
  (∃ r, getBalance subWalletBalance keys true currentHeight
          (perform_all os
             (newSubWallets privateSpendKey privateViewKey address scanHeight
                newWallet now)) = Returns r)
  ∧ (∃ r, getBalance subWalletBalance keys true currentHeight
            (perform_all os
               (newViewSubWallets privateViewKey address scanHeight newWallet
                  now)) = Returns r).
Proof.
  split; unfold getBalance; apply sumBalances_known, Forall_forall;
    apply perform_all_keys_listed.
  - apply newSubWallets_keys_listed.
  - apply newViewSubWallets_keys_listed.
Qed.

(** ** Looking a sub-wallet up by a property *)

(** What [std::find_if] points at: the first element satisfying the
    predicate, or the end when there is none. *)
Lemma find_if_lookup {A : Type} (pred : A → bool) (l : list A) :
  match l !! find_if pred l 0 with
  | Some x =>
      pred x = true
      ∧ ∃ P R, l = P ++ x :: R ∧ Forall (λ y, pred y = false) P
  | None => Forall (λ y, pred y = false) l
  end.
Proof.
  destruct (decide (Forall (λ y, pred y = false) l)) as [Hnone|Hsome].
  - rewrite find_if_no_match by done. simpl.
    by rewrite lookup_ge_None_2 by lia.
  - destruct (first_match_split pred l Hsome) as (P & m & R & -> & HP & Hm).
    rewrite find_if_first_match by done. simpl.
    rewrite list_lookup_middle by done. eauto.
Qed.

(** X10: [getPrimaryAddress] throws [std::runtime_error] exactly when no
    sub-wallet of the container is marked primary; otherwise it returns the
    address of a sub-wallet that is marked primary, and when only one
    sub-wallet is marked primary it returns the address of that one,
    whatever the order of the map. *)
Theorem getPrimaryAddress_spec (c : SubWallets) :
  (getPrimaryAddress c
   = Throws (runtime_error "This container has no primary address!")
   ↔ ∀ k w, m_subWallets c !! k = Some w → SubWallet.isPrimaryAddress w = false)
  ∧ (∀ a, getPrimaryAddress c = Returns a →
       ∃ k w, m_subWallets c !! k = Some w
              ∧ SubWallet.isPrimaryAddress w = true ∧ SubWallet.address w = a)
  ∧ (∀ k w,
       m_subWallets c !! k = Some w → SubWallet.isPrimaryAddress w = true →
       (∀ k' w', m_subWallets c !! k' = Some w' →
                 SubWallet.isPrimaryAddress w' = true → k' = k) →
       getPrimaryAddress c = Returns (SubWallet.address w)).
Proof.
  unfold getPrimaryAddress.
  pose proof (find_if_lookup
                (λ subWallet : N * SubWallet.t, SubWallet.isPrimaryAddress subWallet.2)
                (map_to_list (m_subWallets c))) as Hfind.
  destruct (map_to_list (m_subWallets c) !! _) as [[k0 w0]|] eqn:Hit.
  - destruct Hfind as (Hprimary & P & R & Hsplit & _). simpl in Hprimary.
    assert (m_subWallets c !! k0 = Some w0) as Hk0.
    { apply elem_of_map_to_list. rewrite Hsplit.
      apply elem_of_app. right. apply list_elem_of_here. }
    split; [|split].
    + split; [done|]. intros Hnone. specialize (Hnone k0 w0 Hk0). congruence.
    + intros a [= <-]. eauto.
    + intros k w Hk Hw Hunique.
      assert (k0 = k) as -> by eauto. simpl. congruence.
  - split; [|split].
    + split; [|done]. intros _ k w Hk.
      apply elem_of_map_to_list in Hk.
      by apply (proj1 (Forall_forall _ _) Hfind (k, w)).
    + done.
    + intros k w Hk Hw _. apply elem_of_map_to_list in Hk.
      pose proof (proj1 (Forall_forall _ _) Hfind (k, w) Hk) as Hnot.
      simpl in Hnot. congruence.
Qed.

(** X11: on a view wallet [getKeyImageOwner] answers [(false, zero key)]
    for every key image; on a full wallet it answers [true] exactly when
    some sub-wallet reports the key image, and then with the public spend
    key of a sub-wallet that reports it; when it answers [false] the key it
    gives is the zero key. *)
Theorem getKeyImageOwner_spec (keyImage : KeyImage) (c : SubWallets) :
  (m_isViewWallet c = true → getKeyImageOwner keyImage c = (false, 0%N))
  ∧ (m_isViewWallet c = false →
     ((getKeyImageOwner keyImage c).1 = true
      ↔ ∃ k w, m_subWallets c !! k = Some w
               ∧ SubWallet.hasKeyImage w keyImage = true)
     ∧ ((getKeyImageOwner keyImage c).1 = true →
        ∃ k w, m_subWallets c !! k = Some w
               ∧ SubWallet.hasKeyImage w keyImage = true
               ∧ (getKeyImageOwner keyImage c).2 = SubWallet.publicSpendKey w))
  ∧ ((getKeyImageOwner keyImage c).1 = false
     → (getKeyImageOwner keyImage c).2 = 0%N).
Proof.
  unfold getKeyImageOwner.
  destruct (m_isViewWallet c); [by repeat split|].
  pose proof (find_if_lookup
                (λ entry : N * SubWallet.t, SubWallet.hasKeyImage entry.2 keyImage)
                (map_to_list (m_subWallets c))) as Hfind.
  destruct (map_to_list (m_subWallets c) !! _) as [[k0 w0]|] eqn:Hit; simpl.
  - destruct Hfind as (Hhas & P & R & Hsplit & _). simpl in Hhas.
    assert (m_subWallets c !! k0 = Some w0) as Hk0.
    { apply elem_of_map_to_list. rewrite Hsplit.
      apply elem_of_app. right. apply list_elem_of_here. }
    split; [done|]. split; [|done]. intros _. split; [split; eauto|eauto].
  - split; [done|]. split; [|done]. intros _. split; [|done].
    split; [done|]. intros (k & w & Hk & Hw).
    apply elem_of_map_to_list in Hk.
    pose proof (proj1 (Forall_forall _ _) Hfind (k, w) Hk) as Hnot.
    simpl in Hnot. congruence.
Qed.

(** ** What the journal operations keep *)

Section erase_idiom_facts.
Context {A : Type} (pred : A → bool) (moved : A → A).

Lemma filter_unmatched_all (v : list A) :
  Forall (λ x, pred x = false) v → filter (λ x, pred x = false) v = v.
Proof.
  induction 1 as [|x v Hx _ IH]; [done|].
  by rewrite filter_cons_True, IH.
Qed.

(** The unmatched elements come first in the result, in their order. *)
Lemma remove_if_then_erase_keeps_unmatched (v : list A) :
  filter (λ x, pred x = false) v `prefix_of` remove_if_then_erase pred moved v.
Proof.
  destruct (decide (Forall (λ x, pred x = false) v)) as [Hnone|Hsome].
  - rewrite remove_if_then_erase_no_match, filter_unmatched_all by done. done.
  - destruct (first_match_split pred v Hsome) as (P & m & R & -> & HP & Hm).
    rewrite remove_if_then_erase_match by done.
    rewrite filter_app, filter_cons_False by (by rewrite Hm).
    rewrite filter_unmatched_all by done.
    apply prefix_app, prefix_app_r. done.
Qed.

(** The result is shorter by one element when something matches, and is
    the vector itself when nothing does. *)
Lemma remove_if_then_erase_length (v : list A) :
  (Forall (λ x, pred x = false) v ∧ remove_if_then_erase pred moved v = v)
  ∨ (¬ Forall (λ x, pred x = false) v
     ∧ S (length (remove_if_then_erase pred moved v)) = length v).
Proof.
  destruct (decide (Forall (λ x, pred x = false) v)) as [Hnone|Hsome].
  - left. split; [done|]. by apply remove_if_then_erase_no_match.
  - right. split; [done|].
    destruct (first_match_split pred v Hsome) as (P & m & R & -> & HP & Hm).
    rewrite remove_if_then_erase_match by done.
    pose proof (length_filter (λ x, pred x = false) R) as Hle.
    rewrite !length_app, length_drop, length_fmap. simpl. lia.
Qed.

(** With a single match the idiom removes exactly that element. *)
Lemma remove_if_then_erase_single (P : list A) (m : A) (R : list A) :
  Forall (λ x, pred x = false) P → pred m = true →
  Forall (λ x, pred x = false) R →
  remove_if_then_erase pred moved (P ++ m :: R) = P ++ R.
Proof.
  intros HP Hm HR. rewrite remove_if_then_erase_match by done.
  rewrite filter_unmatched_all by done.
  rewrite drop_ge by (by rewrite length_fmap). by rewrite app_nil_r.
Qed.

End erase_idiom_facts.

(** X12: [removeForkedTransactions] never drops a confirmed transaction
    below the fork height: those come first in the result, in their order;
    the sequence loses one entry when some transaction is at or above the
    fork height and none otherwise; the locked transactions and
    [m_publicSpendKeys] are not touched. *)
Theorem removeForkedTransactions_keeps_lower (forkHeight : Z) (c : SubWallets) :
  filter (λ tx, Transaction.blockHeight tx < forkHeight) (m_transactions c)
    `prefix_of` m_transactions (removeForkedTransactions forkHeight c)
  ∧ ((Forall (λ tx, Transaction.blockHeight tx < forkHeight) (m_transactions c)
      ∧ m_transactions (removeForkedTransactions forkHeight c) = m_transactions c)
     ∨ (¬ Forall (λ tx, Transaction.blockHeight tx < forkHeight) (m_transactions c)
        ∧ S (length (m_transactions (removeForkedTransactions forkHeight c)))
          = length (m_transactions c)))
  ∧ m_lockedTransactions (removeForkedTransactions forkHeight c)
    = m_lockedTransactions c
  ∧ m_publicSpendKeys (removeForkedTransactions forkHeight c)
    = m_publicSpendKeys c.
Proof.
  unfold removeForkedTransactions. simpl.
  set (pred := λ tx : Transaction.t,
                 bool_decide (forkHeight ≤ Transaction.blockHeight tx)).
  assert (∀ tx, pred tx = false ↔ Transaction.blockHeight tx < forkHeight)
    as Hpred.
  { intros tx. unfold pred. rewrite bool_decide_eq_false. lia. }
  assert (∀ l, Forall (λ tx, pred tx = false) l
               ↔ Forall (λ tx, Transaction.blockHeight tx < forkHeight) l)
    as Hall.
  { intros l. apply Forall_iff, Hpred. }
  split; [|split; [|done]].
  - rewrite <- (list_filter_iff _ _ (m_transactions c) Hpred).
    apply remove_if_then_erase_keeps_unmatched.
  - rewrite <- !Hall.
    apply (remove_if_then_erase_length pred Transaction.moved_from).
Qed.

(** X13: on a full wallet [removeCancelledTransactions] returns; the locked
    transactions whose hash is not cancelled come first in the new locked
    sequence, in their order; when exactly one locked transaction is
    cancelled precisely that one is removed; the confirmed transactions and
    [m_publicSpendKeys] are not touched. *)
Theorem removeCancelledTransactions_keeps_others (cancelled : gset Hash)
    (c : SubWallets) :
  m_isViewWallet c = false →
  ∃ c', removeCancelledTransactions cancelled c = Returns c'
    ∧ filter (λ tx, Transaction.hash tx ∉ cancelled) (m_lockedTransactions c)
        `prefix_of` m_lockedTransactions c'
    ∧ (∀ P tx R,
         m_lockedTransactions c = P ++ tx :: R →
         Transaction.hash tx ∈ cancelled →
         Forall (λ t, Transaction.hash t ∉ cancelled) (P ++ R) →
         m_lockedTransactions c' = P ++ R)
    ∧ m_transactions c' = m_transactions c
    ∧ m_publicSpendKeys c' = m_publicSpendKeys c.
Proof.
  intros Hfull. unfold removeCancelledTransactions, throwIfViewWallet.
  rewrite Hfull. simpl. eexists. split; [reflexivity|]. simpl.
  set (pred := λ tx : Transaction.t,
                 bool_decide (Transaction.hash tx ∈ cancelled)).
  assert (∀ tx, pred tx = false ↔ Transaction.hash tx ∉ cancelled) as Hpred.
  { intros tx. unfold pred. by rewrite bool_decide_eq_false. }
  split; [|split; [|done]].
  - rewrite <- (list_filter_iff _ _ (m_lockedTransactions c) Hpred).
    apply remove_if_then_erase_keeps_unmatched.
  - intros P tx R -> Htx [HP HR]%Forall_app.
    apply remove_if_then_erase_single.
    + eapply Forall_impl; [exact HP|]. intros t. apply Hpred.
    + by apply bool_decide_eq_true.
    + eapply Forall_impl; [exact HR|]. intros t. apply Hpred.
Qed.

Lemma removeCancelledTransactions_keeps_others_witness :
  m_isViewWallet ex_wallet_two_locked = false
  ∧ ∃ c', removeCancelledTransactions {[7%N]} ex_wallet_two_locked = Returns c'
    ∧ filter (λ tx, Transaction.hash tx ∉ ({[7%N]} : gset N))
        (m_lockedTransactions ex_wallet_two_locked)
        `prefix_of` m_lockedTransactions c'
    ∧ (∀ P tx R,
         m_lockedTransactions ex_wallet_two_locked = P ++ tx :: R →
         Transaction.hash tx ∈ ({[7%N]} : gset N) →
         Forall (λ t, Transaction.hash t ∉ ({[7%N]} : gset N)) (P ++ R) →
         m_lockedTransactions c' = P ++ R)
    ∧ m_transactions c' = m_transactions ex_wallet_two_locked
    ∧ m_publicSpendKeys c' = m_publicSpendKeys ex_wallet_two_locked.
Proof.
  exact (conj eq_refl
    (removeCancelledTransactions_keeps_others {[7%N]} ex_wallet_two_locked
       eq_refl)).
Defined.

(** X14: [reset] empties the locked transactions, keeps every confirmed
    transaction below the scan height (they come first in the result, in
    their order), and keeps [m_publicSpendKeys] and the set of sub-wallet
    keys. *)
Theorem reset_keeps_lower (scanHeight : Z) (c : SubWallets) :
  m_lockedTransactions (reset scanHeight c) = []
  ∧ filter (λ tx, Transaction.blockHeight tx < scanHeight) (m_transactions c)
      `prefix_of` m_transactions (reset scanHeight c)
  ∧ m_publicSpendKeys (reset scanHeight c) = m_publicSpendKeys c
  ∧ dom (m_subWallets (reset scanHeight c)) = dom (m_subWallets c).
Proof.
  unfold reset. simpl. split; [done|]. split; [|split; [done|]].
  - set (pred := λ tx : Transaction.t,
                   bool_decide (scanHeight ≤ Transaction.blockHeight tx)).
    assert (∀ tx, pred tx = false ↔ Transaction.blockHeight tx < scanHeight)
      as Hpred.
    { intros tx. unfold pred. rewrite bool_decide_eq_false. lia. }
    rewrite <- (list_filter_iff _ _ (m_transactions c) Hpred).
    apply remove_if_then_erase_keeps_unmatched.
  - by rewrite dom_fmap_L.
Qed.

(** X15: on a full wallet, submitting a transaction with
    [addUnconfirmedTransaction] adds exactly its hash to the set
    [getLockedTransactionsHashes] reports. *)
Theorem getLockedTransactionsHashes_after_submit (tx : Transaction.t)
    (c : SubWallets) :
  m_isViewWallet c = false →
  ∃ hashes, getLockedTransactionsHashes c = Returns hashes
    ∧ getLockedTransactionsHashes (addUnconfirmedTransaction tx c)
      = Returns (hashes ∪ {[Transaction.hash tx]}).
Proof.
  intros Hfull. unfold getLockedTransactionsHashes, throwIfViewWallet.
  simpl. rewrite Hfull. simpl. eexists. split; [reflexivity|].
  unfold mret, outcome_ret. f_equal.
  rewrite fmap_app, list_to_set_app_L. f_equal.
  apply list_to_set_singleton_L.
Qed.

Lemma getLockedTransactionsHashes_after_submit_witness :
  m_isViewWallet ex_wallet_two_locked = false
  ∧ ∃ hashes, getLockedTransactionsHashes ex_wallet_two_locked = Returns hashes
    ∧ getLockedTransactionsHashes
        (addUnconfirmedTransaction (ex_tx 9 0) ex_wallet_two_locked)
      = Returns (hashes ∪ {[Transaction.hash (ex_tx 9 0)]}).
Proof.
  exact (conj eq_refl
    (getLockedTransactionsHashes_after_submit (ex_tx 9 0) ex_wallet_two_locked
       eq_refl)).
Defined.

(** X16: [addTransaction] appends the transaction to the confirmed
    sequence; when exactly one locked transaction carries its hash that
    entry is removed and the other locked transactions keep their order, and
    when none does the locked sequence is left as it is. *)
Theorem addTransaction_unlocks_single (tx : Transaction.t) (c : SubWallets) :
  m_transactions (addTransaction tx c) = m_transactions c ++ [tx]
  ∧ (hash_absent (Transaction.hash tx) (m_lockedTransactions c) →
     m_lockedTransactions (addTransaction tx c) = m_lockedTransactions c)
  ∧ (∀ P submitted R,
       m_lockedTransactions c = P ++ submitted :: R →
       Transaction.hash submitted = Transaction.hash tx →
       hash_absent (Transaction.hash tx) (P ++ R) →
       m_lockedTransactions (addTransaction tx c) = P ++ R).
Proof.
  unfold addTransaction. simpl. split; [done|].
  set (pred := λ transaction : Transaction.t,
                 bool_decide (Transaction.hash tx = Transaction.hash transaction)).
  assert (∀ l, hash_absent (Transaction.hash tx) l
               → Forall (λ t, pred t = false) l) as Habs.
  { intros l Hl. eapply Forall_impl; [exact Hl|]. intros t Ht. simpl in Ht.
    apply bool_decide_eq_false. congruence. }
  split.
  - intros Hnone. apply remove_if_then_erase_no_match. by apply Habs.
  - intros P submitted R -> Hhash [HP HR]%Forall_app.
    apply remove_if_then_erase_single; [by apply Habs | | by apply Habs].
    by apply bool_decide_eq_true.
Qed.

(** ** Operations on one sub-wallet *)

(** X17: on a full wallet [markInputAsSpent] and [markInputAsLocked] throw
    [std::out_of_range] when the public key names no sub-wallet; when it
    names one they return, and the new container differs from the old one at
    most in the sub-wallet stored under that key: every other sub-wallet,
    the set of keys, both transaction sequences and [m_publicSpendKeys] are
    as before. *)
Theorem markInput_touches_one_sub_wallet (keyImage : KeyImage)
    (publicKey : PublicKey) (spendHeight : Z) (c : SubWallets) :
  m_isViewWallet c = false →
  (m_subWallets c !! publicKey = None →
   markInputAsSpent keyImage publicKey spendHeight c = Throws out_of_range
   ∧ markInputAsLocked keyImage publicKey c = Throws out_of_range)
  ∧ (is_Some (m_subWallets c !! publicKey) →
     ∃ spent locked,
       markInputAsSpent keyImage publicKey spendHeight c = Returns spent
       ∧ markInputAsLocked keyImage publicKey c = Returns locked
       ∧ ∀ c', c' = spent ∨ c' = locked →
           (∀ k, k ≠ publicKey → m_subWallets c' !! k = m_subWallets c !! k)
           ∧ dom (m_subWallets c') = dom (m_subWallets c)
           ∧ m_transactions c' = m_transactions c
           ∧ m_lockedTransactions c' = m_lockedTransactions c
           ∧ m_publicSpendKeys c' = m_publicSpendKeys c).
Proof.
  intros Hfull. unfold markInputAsSpent, markInputAsLocked, throwIfViewWallet.
  rewrite Hfull. simpl. split.
  - by intros ->.
  - intros [w Hw]. rewrite Hw. do 2 eexists.
    split; [reflexivity|]. split; [reflexivity|].
    intros c' [-> | ->]; simpl;
      (split; [by intros k Hk; rewrite lookup_insert_ne|]);
      (split; [by rewrite (dom_insert_present _ _ w)|]); done.
Qed.

Lemma markInput_touches_one_sub_wallet_witness :
  m_isViewWallet ex_wallet_funded = false
  ∧ (m_subWallets ex_wallet_funded !! 42%N = None →
     markInputAsSpent 1002 42 7 ex_wallet_funded = Throws out_of_range
     ∧ markInputAsLocked 1002 42 ex_wallet_funded = Throws out_of_range).
Proof.
  exact (conj eq_refl
    (proj1 (markInput_touches_one_sub_wallet 1002%N 42%N 7 ex_wallet_funded
              eq_refl))).
Defined.

(** X18: [completeAndStoreTransactionInput] changes at most the sub-wallet
    stored under the given public spend key: every other sub-wallet, the set
    of keys, both transaction sequences, [m_publicSpendKeys] and the view
    flag are as before. *)
Theorem completeAndStoreTransactionInput_touches_one_sub_wallet `{!Externals}
    (publicSpendKey : PublicKey) (derivation : KeyDerivation) (outputIndex : Z)
    (input : TransactionInput.t) (c : SubWallets) :
  (∀ k, k ≠ publicSpendKey →
     m_subWallets
       (completeAndStoreTransactionInput publicSpendKey derivation outputIndex
          input c) !! k
     = m_subWallets c !! k)
  ∧ dom (m_subWallets
           (completeAndStoreTransactionInput publicSpendKey derivation
              outputIndex input c))
    = dom (m_subWallets c)
  ∧ m_transactions
      (completeAndStoreTransactionInput publicSpendKey derivation outputIndex
         input c)
    = m_transactions c
  ∧ m_lockedTransactions
      (completeAndStoreTransactionInput publicSpendKey derivation outputIndex
         input c)
    = m_lockedTransactions c
  ∧ m_publicSpendKeys
      (completeAndStoreTransactionInput publicSpendKey derivation outputIndex
         input c)
    = m_publicSpendKeys c
  ∧ m_isViewWallet
      (completeAndStoreTransactionInput publicSpendKey derivation outputIndex
         input c)
    = m_isViewWallet c.
Proof.
  unfold completeAndStoreTransactionInput.
  destruct (m_subWallets c !! publicSpendKey) as [w|] eqn:Hw; [|done]. simpl.
  split; [by intros k Hk; rewrite lookup_insert_ne|].
  split; [by rewrite (dom_insert_present _ _ w)|]. done.
Qed.

(** ** More on the standard selection *)

Lemma mod64_add_l (a b : Z) :
  (a mod UINT64_MOD + b) mod UINT64_MOD = (a + b) mod UINT64_MOD.
Proof. apply Zplus_mod_idemp_l. Qed.

(** What the accumulation loop has done when it returns: it took a
    non-empty prefix of the inputs, the first one whose running sum (in
    [uint64_t] arithmetic) reaches the target. *)
Lemma takeInputsForAmount_returns (amount : Z)
    (l acc : list TxInputAndOwner.t) (found : Z)
    (inputs : list TxInputAndOwner.t) (sum : Z) :
  takeInputsForAmount amount l acc found = Returns (inputs, sum) →
  ∃ taken, inputs = acc ++ taken ∧ taken ≠ [] ∧ taken `prefix_of` l
    ∧ sum = (found + total taken) mod UINT64_MOD ∧ amount ≤ sum
    ∧ ∀ p, p `prefix_of` taken → p ≠ [] → p ≠ taken →
           (found + total p) mod UINT64_MOD < amount.
Proof.
  revert acc found. induction l as [|x l IH]; intros acc found Hret; [done|].
  cbn [takeInputsForAmount] in Hret. fold (amount_of x) in Hret.
  destruct (decide (amount ≤ add64 found (amount_of x))) as [Hstop|Hgo].
  - injection Hret as <- <-. exists [x].
    split; [done|]. split; [done|]. split; [by apply prefix_cons, prefix_nil|].
    simpl. rewrite Z.add_0_r. split; [done|]. split; [done|].
    intros p [k Hk] Hp Hne. destruct p as [|y p]; [done|].
    destruct p; [|done]. simpl in Hk. by injection Hk as ->.
  - destruct (IH _ _ Hret) as (taken & -> & Hne & Hpre & -> & Hsum & Hmin).
    exists (x :: taken). rewrite <- app_assoc.
    split; [done|]. split; [done|]. split; [by apply prefix_cons|].
    unfold add64 in *. simpl.
    rewrite mod64_add_l, <- Z.add_assoc in *.
    split; [done|]. split; [done|].
    intros p [k Hk] Hp Hnep. destruct p as [|y p]; [done|].
    simpl in Hk. injection Hk as -> Hk.
    destruct p as [|z p].
    + simpl. rewrite Z.add_0_r. lia.
    + simpl. specialize (Hmin (z :: p)).
      rewrite mod64_add_l in Hmin. simpl in Hmin. rewrite <- Z.add_assoc in Hmin.
      apply Hmin; [by exists k | done | congruence].
Qed.

(** X19: when [getTransactionInputsForAmount] returns, the container is a
    full wallet, the inputs returned are a non-empty prefix of the shuffled
    spendable inputs, the sum returned is the sum of their amounts in
    [uint64_t] arithmetic and covers the target, and no shorter non-empty
    prefix would have covered it: the selection never takes more inputs
    than it needs in the shuffled order. *)
Theorem getTransactionInputsForAmount_minimal
    (shuffle : list TxInputAndOwner.t → list TxInputAndOwner.t)
    (amount : Z) (takeFromAll : bool) (keys : list PublicKey) (c : SubWallets)
    (inputs : list TxInputAndOwner.t) (sum : Z) :
  getTransactionInputsForAmount shuffle amount takeFromAll keys c
  = Returns (inputs, sum) →
  m_isViewWallet c = false
  ∧ (∃ availableInputs,
       gatherInputs takeFromAll keys c = Returns availableInputs
       ∧ inputs `prefix_of` shuffle availableInputs)
  ∧ inputs ≠ []
  ∧ sum = total64 inputs ∧ amount ≤ sum
  ∧ ∀ p, p `prefix_of` inputs → p ≠ [] → p ≠ inputs → total64 p < amount.
Proof.
  unfold getTransactionInputsForAmount, throwIfViewWallet.
  destruct (m_isViewWallet c); [done|]. simpl.
  destruct (gatherInputs takeFromAll keys c) as [availableInputs| | |];
    simpl; try done.
  intros Hret. apply takeInputsForAmount_returns in Hret
    as (taken & -> & Hne & Hpre & -> & Hsum & Hmin).
  simpl in *. split; [done|]. split; [eauto|]. done.
Qed.

Lemma getTransactionInputsForAmount_minimal_witness :
  ∃ inputs,
    getTransactionInputsForAmount reverse 1000 true [] ex_wallet_funded
    = Returns (inputs, 1300)
    ∧ inputs ≠ []
    ∧ ∀ p, p `prefix_of` inputs → p ≠ [] → p ≠ inputs → total64 p < 1000.
Proof.
  eexists.
  assert (getTransactionInputsForAmount reverse 1000 true [] ex_wallet_funded
          = Returns (take 2 (reverse ex_available), 1300)) as Hret
    by (vm_compute; reflexivity).
  split; [exact Hret|].
  pose proof (getTransactionInputsForAmount_minimal reverse 1000 true []
                ex_wallet_funded _ _ Hret) as (_ & _ & Hne & _ & _ & Hmin).
  exact (conj Hne Hmin).
Defined.

(** The two lookup loops throw [std::out_of_range] when a selected key
    names no sub-wallet. *)
Lemma gatherInputs_unknown (takeFromAll : bool) (keys : list PublicKey)
    (c : SubWallets) :
  ¬ Forall (λ publicKey, is_Some (m_subWallets c !! publicKey))
      (if takeFromAll then m_publicSpendKeys c else keys) →
  gatherInputs takeFromAll keys c = Throws out_of_range.
Proof.
  unfold gatherInputs.
  generalize (if takeFromAll then m_publicSpendKeys c else keys).
  intros selected Hunknown.
  assert (mapM (λ publicKey,
                  match m_subWallets c !! publicKey with
                  | Some subWallet => Returns subWallet
                  | None => Throws out_of_range
                  end) selected = Throws out_of_range) as ->; [|done].
  induction selected as [|pk selected IH].
  - destruct Hunknown. constructor.
  - cbn [mapM]. destruct (m_subWallets c !! pk) as [w|] eqn:Hw; [|done].
    simpl. rewrite IH; [done|].
    intros Hall. apply Hunknown. constructor; [eauto | done].
Qed.

(** X20: on a full wallet both selections throw [std::out_of_range] when
    one of the selected public keys (the given list, or [m_publicSpendKeys]
    under [takeFromAll]) names no sub-wallet, whatever the target amount and
    the shuffles. *)
Theorem selection_unknown_key `{!Externals}
    (shuffle : list TxInputAndOwner.t → list TxInputAndOwner.t)
    (shuffleBuckets : list (list TxInputAndOwner.t) → list (list TxInputAndOwner.t))
    (amount mixin : Z) (takeFromAll : bool) (keys : list PublicKey)
    (c : SubWallets) :
  m_isViewWallet c = false →
  ¬ Forall (λ publicKey, is_Some (m_subWallets c !! publicKey))
      (if takeFromAll then m_publicSpendKeys c else keys) →
  getTransactionInputsForAmount shuffle amount takeFromAll keys c
  = Throws out_of_range
  ∧ getFusionTransactionInputs shuffle shuffleBuckets takeFromAll keys mixin c
    = Throws out_of_range.
Proof.
  intros Hfull Hunknown.
  unfold getTransactionInputsForAmount, getFusionTransactionInputs,
    throwIfViewWallet.
  rewrite Hfull. simpl. by rewrite gatherInputs_unknown.
Qed.

Lemma selection_unknown_key_witness :
  m_isViewWallet ex_wallet_funded = false
  ∧ ¬ Forall (λ publicKey, is_Some (m_subWallets ex_wallet_funded !! publicKey))
        [1001%N; 42%N]
  ∧ getTransactionInputsForAmount id 5 false [1001%N; 42%N] ex_wallet_funded
    = Throws out_of_range
  ∧ getFusionTransactionInputs (H := ex_externals) id id false [1001%N; 42%N] 0
      ex_wallet_funded
    = Throws out_of_range.
Proof.
  assert (¬ Forall (λ publicKey,
                      is_Some (m_subWallets ex_wallet_funded !! publicKey))
              [1001%N; 42%N]) as Hunknown.
  { intros Hall. apply Forall_cons in Hall as [_ Hall].
    apply Forall_cons in Hall as [[w Hw] _].
    vm_compute in Hw. discriminate Hw. }
  exact (conj eq_refl (conj Hunknown
    (selection_unknown_key (H := ex_externals) id id 5 0 false
       [1001%N; 42%N] ex_wallet_funded eq_refl Hunknown))).
Defined.

(** ** More on the fusion selection *)

Section fusion_bounds.
Context `{!Externals}.

(** One bucket: the loop takes a prefix of the bucket, keeps the running
    sum in [uint64_t] arithmetic and stops once [maxInputsToTake] inputs are
    held (after the first input at the latest when that bound is below
    one). *)
Lemma takeFromBucket_spec (maxInputsToTake : Z)
    (bucket acc : list TxInputAndOwner.t) (found : Z) :
  0 ≤ found < UINT64_MOD →
  acc = [] ∨ Z.of_nat (length acc) < maxInputsToTake →
  ∃ taken,
    (takeFromBucket maxInputsToTake bucket acc found).2.1 = acc ++ taken
    ∧ taken `prefix_of` bucket
    ∧ (takeFromBucket maxInputsToTake bucket acc found).2.2
      = (found + total taken) mod UINT64_MOD
    ∧ Z.of_nat (length (acc ++ taken)) ≤ Z.max 1 maxInputsToTake
    ∧ ((takeFromBucket maxInputsToTake bucket acc found).1 = false →
       taken = bucket
       ∧ (acc ++ taken = []
          ∨ Z.of_nat (length (acc ++ taken)) < maxInputsToTake)).
Proof.
  revert acc found. induction bucket as [|x bucket IH]; intros acc found Hf Hacc.
  - exists []. simpl. rewrite app_nil_r, Z.add_0_r, Z.mod_small by done.
    repeat split; try done. destruct Hacc as [->|]; simpl; lia.
  - cbn [takeFromBucket]. fold (amount_of x).
    destruct (decide (maxInputsToTake ≤ Z.of_nat (length (acc ++ [x]))))
      as [Hstop|Hgo].
    + exists [x]. simpl. rewrite Z.add_0_r.
      split; [done|]. split; [by apply prefix_cons, prefix_nil|].
      split; [done|]. split; [|done].
      rewrite length_app in *. simpl in *.
      destruct Hacc as [->|]; simpl; lia.
    + destruct (IH (acc ++ [x]) (add64 found (amount_of x)))
        as (taken & Hin & Hpre & Hsum & Hlen & Hrest);
        [apply add64_range | right; lia |].
      exists (x :: taken). rewrite <- app_assoc in *. simpl in *.
      split; [done|]. split; [by apply prefix_cons|].
      split; [|split; [done|]].
      * rewrite Hsum. unfold add64. rewrite mod64_add_l. f_equal. lia.
      * intros Hfalse. destruct (Hrest Hfalse) as [-> Hshort]. done.
Qed.

(** All the buckets: the loop takes a prefix of their concatenation. *)
Lemma takeFromBuckets_spec (maxInputsToTake : Z)
    (buckets : list (list TxInputAndOwner.t))
    (acc : list TxInputAndOwner.t) (found : Z) :
  0 ≤ found < UINT64_MOD →
  acc = [] ∨ Z.of_nat (length acc) < maxInputsToTake →
  ∃ taken,
    (takeFromBuckets maxInputsToTake buckets acc found).1 = acc ++ taken
    ∧ taken `prefix_of` concat buckets
    ∧ (takeFromBuckets maxInputsToTake buckets acc found).2
      = (found + total taken) mod UINT64_MOD
    ∧ Z.of_nat (length (acc ++ taken)) ≤ Z.max 1 maxInputsToTake.
Proof.
  revert acc found. induction buckets as [|bucket buckets IH];
    intros acc found Hf Hacc.
  - exists []. simpl. rewrite app_nil_r, Z.add_0_r, Z.mod_small by done.
    repeat split; try done. destruct Hacc as [->|]; simpl; lia.
  - cbn [takeFromBuckets].
    destruct (takeFromBucket_spec maxInputsToTake bucket acc found Hf Hacc)
      as (taken & Hin & Hpre & Hsum & Hlen & Hrest).
    destruct (takeFromBucket maxInputsToTake bucket acc found)
      as [[|] [inputs found']]; simpl in *.
    + exists taken. split; [done|]. split; [by apply prefix_app_r|]. done.
    + destruct (Hrest eq_refl) as [-> Hshort]. subst inputs found'.
      destruct (IH (acc ++ bucket) ((found + total bucket) mod UINT64_MOD))
        as (taken2 & Hin2 & Hpre2 & Hsum2 & Hlen2);
        [apply Z.mod_pos_bound; unfold UINT64_MOD; lia | done |].
      exists (bucket ++ taken2). rewrite app_assoc.
      split; [done|]. split; [by apply prefix_app|].
      split; [|done].
      rewrite Hsum2, mod64_add_l, total_app. f_equal. lia.
Qed.

(** X21: when [getFusionTransactionInputs] returns (for any outcome of the
    two shuffles), the second component is the approximate maximum input
    count of the currency, the third is the sum of the returned amounts in
    [uint64_t] arithmetic, at most that maximum number of inputs is returned
    (one input when the maximum is below one), and every returned input is
    one of the gathered spendable inputs. *)
Theorem getFusionTransactionInputs_bounds
    (shuffle : list TxInputAndOwner.t → list TxInputAndOwner.t)
    (shuffleBuckets : list (list TxInputAndOwner.t) → list (list TxInputAndOwner.t))
    (takeFromAll : bool) (keys : list PublicKey) (mixin : Z) (c : SubWallets)
    (inputs : list TxInputAndOwner.t) (maxInputsToTake foundMoney : Z) :
  (∀ l, shuffle l ≡ₚ l) →
  (∀ l, shuffleBuckets l ≡ₚ l) →
  getFusionTransactionInputs shuffle shuffleBuckets takeFromAll keys mixin c
  = Returns (inputs, maxInputsToTake, foundMoney) →
  maxInputsToTake
  = getApproximateMaximumInputCount FUSION_TX_MAX_SIZE
      FUSION_TX_MIN_IN_OUT_COUNT_RATIO mixin
  ∧ foundMoney = total64 inputs
  ∧ Z.of_nat (length inputs) ≤ Z.max 1 maxInputsToTake
  ∧ ∃ availableInputs,
      gatherInputs takeFromAll keys c = Returns availableInputs
      ∧ Forall (λ i, i ∈ availableInputs) inputs.
Proof.
  intros Hshuffle Hshuffle2.
  unfold getFusionTransactionInputs, throwIfViewWallet.
  destruct (m_isViewWallet c); [done|]. simpl.
  destruct (gatherInputs takeFromAll keys c) as [availableInputs| | |];
    simpl; try done.
  specialize (Hshuffle availableInputs).
  set (shuffled := shuffle availableInputs) in *.
  destruct (fillBuckets shuffled ∅) as [buckets| | |] eqn:Hfill; simpl; try done.
  pose proof (fillBuckets_returns_nonzero _ _ _ Hfill) as Hnonzero.
  destruct (fillBuckets_spec shuffled ∅ Hnonzero) as (buckets' & Hfill' & Hchar & _).
  rewrite Hfill in Hfill'. injection Hfill' as <-.
  assert (∀ bucket, bucket ∈ (map_to_list buckets).*2
                    → Forall (λ i, i ∈ availableInputs) bucket) as Hbuckets.
  { intros bucket ([k bucket'] & -> & Hin)%list_elem_of_fmap.
    apply elem_of_map_to_list in Hin. simpl.
    specialize (Hchar k). rewrite Hin, lookup_empty in Hchar. simpl in Hchar.
    subst bucket'. apply Forall_forall. intros i Hi.
    unfold bucket_members in Hi. apply list_elem_of_filter in Hi as [_ Hi].
    by rewrite <- Hshuffle. }
  set (fullBuckets :=
         filter (λ bucket, FUSION_TX_MIN_INPUT_COUNT ≤ Z.of_nat (length bucket))
           ((map_to_list buckets).*2)).
  set (bucketsToTakeFrom :=
         match shuffleBuckets fullBuckets with
         | [] => (map_to_list buckets).*2
         | front :: _ => [front]
         end).
  assert (∀ bucket, bucket ∈ bucketsToTakeFrom
                    → Forall (λ i, i ∈ availableInputs) bucket) as Hfrom.
  { unfold bucketsToTakeFrom. specialize (Hshuffle2 fullBuckets).
    destruct (shuffleBuckets fullBuckets) as [|front rest]; [done|].
    intros bucket ->%list_elem_of_singleton. apply Hbuckets.
    assert (front ∈ fullBuckets) as Hin
      by (rewrite <- Hshuffle2; apply list_elem_of_here).
    by apply list_elem_of_filter in Hin as [_ Hin]. }
  destruct (takeFromBuckets_spec
              (getApproximateMaximumInputCount FUSION_TX_MAX_SIZE
                 FUSION_TX_MIN_IN_OUT_COUNT_RATIO mixin)
              bucketsToTakeFrom [] 0)
    as (taken & Hin & Hpre & Hsum & Hlen); [unfold UINT64_MOD; lia | by left |].
  destruct (takeFromBuckets _ bucketsToTakeFrom [] 0) as [inputs' found'].
  simpl in *. subst inputs' found'.
  intros [= <- <- <-]. split; [done|]. split; [done|]. split; [done|].
  exists availableInputs. split; [done|].
  apply Forall_forall. intros i Hi.
  destruct Hpre as [rest Hconcat].
  assert (i ∈ concat bucketsToTakeFrom) as Hic
    by (rewrite Hconcat; apply elem_of_app; by left).
  apply list_elem_of_In, in_concat in Hic as (bucket & Hbucket & Hib).
  apply list_elem_of_In in Hbucket, Hib.
  by apply (proj1 (Forall_forall _ _) (Hfrom bucket Hbucket)).
Qed.

(** X22: once the spendable inputs are gathered and none of them has amount
    zero, [getFusionTransactionInputs] returns whatever the shuffles do: it
    has no failure for lack of inputs, and with no spendable input at all it
    returns the empty list with found money 0. *)
Theorem getFusionTransactionInputs_returns
    (shuffle : list TxInputAndOwner.t → list TxInputAndOwner.t)
    (shuffleBuckets : list (list TxInputAndOwner.t) → list (list TxInputAndOwner.t))
    (takeFromAll : bool) (keys : list PublicKey) (mixin : Z) (c : SubWallets)
    (availableInputs : list TxInputAndOwner.t) :
  m_isViewWallet c = false →
  gatherInputs takeFromAll keys c = Returns availableInputs →
  (∀ l, shuffle l ≡ₚ l) →
  (∀ l, shuffleBuckets l ≡ₚ l) →
  Forall (λ i, amount_of i ≠ 0) availableInputs →
  (∃ inputs foundMoney,
     getFusionTransactionInputs shuffle shuffleBuckets takeFromAll keys mixin c
     = Returns (inputs,
                getApproximateMaximumInputCount FUSION_TX_MAX_SIZE
                  FUSION_TX_MIN_IN_OUT_COUNT_RATIO mixin,
                foundMoney))
  ∧ (availableInputs = [] →
     getFusionTransactionInputs shuffle shuffleBuckets takeFromAll keys mixin c
     = Returns ([],
                getApproximateMaximumInputCount FUSION_TX_MAX_SIZE
                  FUSION_TX_MIN_IN_OUT_COUNT_RATIO mixin,
                0)).
Proof.
  intros Hfull Hgather Hshuffle Hshuffle2 Hnonzero.
  unfold getFusionTransactionInputs, throwIfViewWallet.
  rewrite Hfull, Hgather. simpl. split.
  - assert (Forall (λ i, amount_of i ≠ 0) (shuffle availableInputs)) as Hnz
      by (by rewrite Hshuffle).
    destruct (fillBuckets_spec _ ∅ Hnz) as (buckets & -> & _). simpl.
    destruct (takeFromBuckets _ _ [] 0) as [inputs foundMoney]. eauto.
  - intros ->. pose proof (Hshuffle []) as Hnil.
    apply Permutation_nil_r in Hnil. rewrite Hnil. simpl.
    rewrite map_to_list_empty. simpl.
    pose proof (Hshuffle2 []) as Hnil2.
    apply Permutation_nil_r in Hnil2.
    change (filter _ []) with (@nil (list TxInputAndOwner.t)).
    by rewrite Hnil2.
Qed.

End fusion_bounds.

Lemma getFusionTransactionInputs_bounds_witness :
  (∀ l : list TxInputAndOwner.t, reverse l ≡ₚ l)
  ∧ (∀ l : list (list TxInputAndOwner.t), reverse l ≡ₚ l)
  ∧ getFusionTransactionInputs (H := ex_externals) reverse reverse true [] 0
      ex_wallet_funded
    = Returns (take 3 (reverse (take 4 ex_available)), 3, 14)
  ∧ 14 = total64 (take 3 (reverse (take 4 ex_available)))
  ∧ Z.of_nat (length (take 3 (reverse (take 4 ex_available)))) ≤ Z.max 1 3.
Proof.
  assert (getFusionTransactionInputs (H := ex_externals) reverse reverse true
            [] 0 ex_wallet_funded
          = Returns (take 3 (reverse (take 4 ex_available)), 3, 14)) as Hret
    by (vm_compute; reflexivity).
  pose proof (getFusionTransactionInputs_bounds (H := ex_externals)
                reverse reverse true [] 0 ex_wallet_funded _ _ _
                reverse_Permutation reverse_Permutation Hret)
    as (_ & Hsum & Hlen & _).
  exact (conj reverse_Permutation (conj reverse_Permutation
           (conj Hret (conj Hsum Hlen)))).
Defined.

Lemma getFusionTransactionInputs_returns_witness :
  m_isViewWallet ex_wallet_funded = false
  ∧ gatherInputs true [] ex_wallet_funded = Returns ex_available
  ∧ (∀ l : list TxInputAndOwner.t, reverse l ≡ₚ l)
  ∧ (∀ l : list (list TxInputAndOwner.t), reverse l ≡ₚ l)
  ∧ Forall (λ i, amount_of i ≠ 0) ex_available
  ∧ ∃ inputs foundMoney,
      getFusionTransactionInputs (H := ex_externals) reverse reverse true [] 7
        ex_wallet_funded
      = Returns (inputs, 3, foundMoney).
Proof.
  exact (conj eq_refl (conj ex_available_gathered
    (conj reverse_Permutation (conj reverse_Permutation
      (conj ex_available_nonzero
        (proj1 (getFusionTransactionInputs_returns (H := ex_externals)
                  reverse reverse true [] 7 ex_wallet_funded ex_available
                  eq_refl ex_available_gathered reverse_Permutation
                  reverse_Permutation ex_available_nonzero))))))).
Defined.

(** ** A fresh container *)

(** X23: right after construction, full or view only, the initial sync
    starts from what the constructor was given: [getMinInitialSyncStart]
    returns the pair computed from the scan height and from the timestamp
    [now] for a new wallet, 0 for a restored one; in particular a restored
    wallet syncs from [(scanHeight, 0)]. *)
Theorem getMinInitialSyncStart_fresh `{!Externals}
    (privateSpendKey privateViewKey : SecretKey) (address : string)
    (scanHeight : Z) (newWallet : bool) (now : Z) :
  getMinInitialSyncStart
    (newSubWallets privateSpendKey privateViewKey address scanHeight newWallet now)
  = Returns (sync_start_from scanHeight (if newWallet then now else 0))
  ∧ getMinInitialSyncStart
      (newViewSubWallets privateViewKey address scanHeight newWallet now)
    = Returns (sync_start_from scanHeight (if newWallet then now else 0))
  ∧ (newWallet = false →
     getMinInitialSyncStart
       (newSubWallets privateSpendKey privateViewKey address scanHeight
          newWallet now)
     = Returns (scanHeight, 0)).
Proof.
  assert (∀ (k : N) (w : SubWallet.t) c,
            m_subWallets c = <[k := w]> ∅ →
            getMinInitialSyncStart c
            = Returns (sync_start_from (SubWallet.syncStartHeight w)
                         (SubWallet.syncStartTimestamp w))) as Hone.
  { intros k w c Hc. unfold getMinInitialSyncStart.
    rewrite Hc, insert_empty, map_to_list_singleton. simpl.
    unfold sync_start_from. by repeat case_decide. }
  split; [|split].
  - by apply (Hone (secret_key_to_public_key privateSpendKey)
                (SubWallet.new (secret_key_to_public_key privateSpendKey)
                   privateSpendKey address scanHeight
                   (if newWallet then now else 0) true)).
  - unfold newViewSubWallets.
    destruct (addressToKeys address) as [publicSpendKey publicViewKey].
    by apply (Hone publicSpendKey
                (SubWallet.new_view publicSpendKey address scanHeight
                   (if newWallet then now else 0) true)).
  - intros ->.
    rewrite (Hone (secret_key_to_public_key privateSpendKey)
               (SubWallet.new (secret_key_to_public_key privateSpendKey)
                  privateSpendKey address scanHeight 0 true)) by done.
    simpl. unfold sync_start_from. by rewrite decide_True by (by right).
Qed.

(** ** The one-iterator [erase] at work *)

(** On the wallet with confirmed heights 10, 20 and 30 and fork height 20
    the forked transactions are the last two; the one at height 30 stays. *)
Lemma removeForkedTransactions_suffix_witness :
  m_transactions ex_wallet_three_txs
  = [ex_tx 1 10] ++ ex_tx 2 20 :: [ex_tx 3 30]
  ∧ Forall (λ t, Transaction.blockHeight t < 20) [ex_tx 1 10]
  ∧ Forall (λ t, 20 ≤ Transaction.blockHeight t) [ex_tx 2 20; ex_tx 3 30]
  ∧ m_transactions (removeForkedTransactions 20 ex_wallet_three_txs)
    = [ex_tx 1 10] ++ [ex_tx 3 30].
Proof.
  assert (Forall (λ t, Transaction.blockHeight t < 20) [ex_tx 1 10]) as Hbelow
    by (repeat constructor).
  assert (Forall (λ t, 20 ≤ Transaction.blockHeight t) [ex_tx 2 20; ex_tx 3 30])
    as Habove by (repeat constructor; simpl; lia).
  exact (conj eq_refl (conj Hbelow (conj Habove
    (removeForkedTransactions_suffix 20 ex_wallet_three_txs [ex_tx 1 10]
       (ex_tx 2 20) [ex_tx 3 30] eq_refl Hbelow Habove)))).
Defined.

Lemma addTransaction_keeps_locked_duplicate_witness :
  ¬ hash_absent (Transaction.hash (ex_tx 7 50))
      (m_lockedTransactions ex_wallet_two_locked)
  ∧ ex_tx 7 50
    ∈ m_lockedTransactions
        (addTransaction (ex_tx 7 50)
           (addUnconfirmedTransaction (ex_tx 7 50) ex_wallet_two_locked)).
Proof.
  assert (¬ hash_absent (Transaction.hash (ex_tx 7 50))
              (m_lockedTransactions ex_wallet_two_locked)) as Hdup.
  { intros Habs. apply Forall_cons in Habs as [Hne _]. by apply Hne. }
  exact (conj Hdup
    (addTransaction_keeps_locked_duplicate (ex_tx 7 50) ex_wallet_two_locked
       Hdup)).
Defined.

(** ** Every operation but [addSubWallet] keeps the two key sets equal *)

(** X26: whenever [m_publicSpendKeys] and the keys of [m_subWallets] are the
    same set, they still are after any operation other than
    [addSubWallet]. *)
Theorem operations_keep_keys_consistent `{!Externals} (o : operation)
    (c : SubWallets) :
  (∀ spendKey now, o ≠ AddSubWallet spendKey now) →
  keys_consistent c →
  keys_consistent (perform o c).
Proof.
  intros Hnot Hc. destruct o; simpl.
  - by destruct (Hnot spendKey now).
  - by apply importSubWallet_keys_consistent.
  - by apply importViewSubWallet_keys_consistent.
  - done.
  - done.
  - by apply completeAndStoreTransactionInput_keys_consistent.
  - destruct (markInputAsSpent keyImage publicKey spendHeight c) eqn:Hr;
      simpl; try done. by eapply markInputAsSpent_keys_consistent.
  - destruct (markInputAsLocked keyImage publicKey c) eqn:Hr;
      simpl; try done. by eapply markInputAsLocked_keys_consistent.
  - by apply removeForkedTransactions_keys_consistent.
  - destruct (removeCancelledTransactions cancelledTransactions c) eqn:Hr;
      simpl; try done. by eapply removeCancelledTransactions_keys_consistent.
  - by apply reset_keys_consistent.
Qed.

Lemma operations_keep_keys_consistent_witness :
  (∀ spendKey now, ImportSubWallet 5 500000 true 1530000000
                   ≠ AddSubWallet spendKey now)
  ∧ keys_consistent ex_wallet
  ∧ keys_consistent
      (perform (H := ex_externals) (ImportSubWallet 5 500000 true 1530000000)
         ex_wallet).
Proof.
  assert (∀ spendKey now, ImportSubWallet 5 500000 true 1530000000
                          ≠ AddSubWallet spendKey now) as Hnot by done.
  assert (keys_consistent ex_wallet) as Hc by (vm_compute; reflexivity).
  exact (conj Hnot (conj Hc
    (operations_keep_keys_consistent (H := ex_externals)
       (ImportSubWallet 5 500000 true 1530000000) ex_wallet Hnot Hc))).
Defined.

(** ** Buckets by the exact logarithm against the buckets of the code *)

(** [ilog10] with enough fuel is the exact [floor(log10)]. *)
Lemma ilog10_spec (fuel : nat) (a : Z) :
  1 ≤ a < 10 ^ Z.of_nat fuel →
  0 ≤ ilog10 fuel a < Z.of_nat fuel
  ∧ 10 ^ ilog10 fuel a ≤ a < 10 ^ (ilog10 fuel a + 1).
Proof.
  revert a. induction fuel as [|fuel IH]; intros a Ha.
  - simpl in Ha. lia.
  - cbn [ilog10]. destruct (decide (a < 10)) as [Hlt|Hge].
    + simpl. lia.
    + rewrite Nat2Z.inj_succ, Z.pow_succ_r in Ha by lia.
      assert (1 ≤ a / 10 < 10 ^ Z.of_nat fuel) as Hdiv.
      { split.
        - apply Z.div_le_lower_bound; lia.
        - apply Z.div_lt_upper_bound; lia. }
      destruct (IH (a / 10) Hdiv) as ([Hpos Hfuel] & Hlow & Hhigh).
      pose proof (Z.mul_div_le a 10 ltac:(lia)) as Hmul.
      pose proof (Z.mod_pos_bound a 10 ltac:(lia)) as Hmod.
      pose proof (Z.div_mod a 10 ltac:(lia)) as Hdm.
      split; [lia|].
      replace (1 + ilog10 fuel (a / 10)) with (Z.succ (ilog10 fuel (a / 10)))
        by lia.
      rewrite Z.pow_succ_r by lia.
      replace (Z.succ (ilog10 fuel (a / 10)) + 1)
        with (Z.succ (ilog10 fuel (a / 10) + 1)) by lia.
      rewrite Z.pow_succ_r by lia. lia.
Qed.

(** [floor_log10 a] is the exponent of the greatest power of ten not above
    [a], for every positive [uint64_t] amount. *)
Lemma floor_log10_spec (a : Z) :
  1 ≤ a < UINT64_MOD →
  0 ≤ floor_log10 a < 20
  ∧ 10 ^ floor_log10 a ≤ a < 10 ^ (floor_log10 a + 1).
Proof.
  intros Ha. apply (ilog10_spec 20). unfold UINT64_MOD in Ha. simpl. lia.
Qed.

Lemma ex_rounding_available_gathered :
  gatherInputs true [] ex_wallet_rounding = Returns ex_rounding_available.
Proof. vm_compute. reflexivity. Qed.

(** The five amounts of [ex_wallet_rounding], their exact [floor(log10)]
    and the bucket the code files them under. *)
Example ex_rounding_available_buckets :
  (λ i, (amount_of i, floor_log10 (amount_of i),
         bucket_index (H := ex_externals_double) i)) <$> ex_rounding_available
  = [(100000000000000, 14, 14); (100000000000000, 14, 14);
     (999999999999999, 14, 15); (999999999999999, 14, 15); (5, 0, 0)].
Proof. vm_compute. reflexivity. Qed.

(** C7: when a bucket of candidates grouped by [floor(log10(amount))] holds
    at least [FUSION_TX_MIN_INPUT_COUNT] members, every returned input is
    meant to come from one such full bucket (the code's comment: buckets
    "based on what power of ten they are in").  The floating-point [log10]
    misses near a power of ten.  The wallet holds amounts [10^14], [10^14],
    [10^15 - 1], [10^15 - 1] and 5; the bucket of [floor(log10) = 14] has
    four members and is full ([FUSION_TX_MIN_INPUT_COUNT = 4]).  The code
    files [10^15 - 1] under 15, finds no full bucket and walks all buckets:
    with room for ten inputs it returns all five, the input of amount 5
    among inputs of [floor(log10) = 14]. *)
Lemma floor_bucket_rule_fails_on_rounding :
  ¬ floor_bucket_rule (H := ex_externals_double) id id true [] 0
      ex_wallet_rounding.
Proof.
  intros Hrule.
  assert (∃ b, full_floor_bucket (H := ex_externals_double) b
                 ex_rounding_available) as Hfull.
  { exists 14. split.
    - vm_compute. discriminate.
    - apply (bool_decide_unpack _). vm_compute. exact I. }
  assert (getFusionTransactionInputs (H := ex_externals_double) id id true [] 0
            ex_wallet_rounding
          = Returns (ex_rounding_selected, 10, 2200000000000003)) as Hret
    by (vm_compute; reflexivity).
  destruct (Hrule ex_rounding_available ex_rounding_available_gathered Hfull
              _ _ _ Hret) as (b & _ & Hall).
  assert (Forall (λ a, floor_log10 a = b) (amount_of <$> ex_rounding_selected))
    as Hamounts.
  { apply Forall_fmap. eapply Forall_impl; [exact Hall|].
    intros i Hi. simpl. unfold floor_bucket_members in Hi.
    by apply list_elem_of_filter in Hi as [Hi _]. }
  assert (5 ∈ amount_of <$> ex_rounding_selected) as H5
    by (apply (bool_decide_unpack _); vm_compute; exact I).
  assert (100000000000000 ∈ amount_of <$> ex_rounding_selected) as H14
    by (apply (bool_decide_unpack _); vm_compute; exact I).
  pose proof (proj1 (Forall_forall _ _) Hamounts _ H5) as Hb5.
  pose proof (proj1 (Forall_forall _ _) Hamounts _ H14) as Hb14.
  vm_compute in Hb5, Hb14. congruence.
Qed.

Section exact_logarithm.
Context `{!Externals}.

Lemma bucket_members_floor (b : Z) (l : list TxInputAndOwner.t) :
  Forall (λ i, 1 ≤ amount_of i < UINT64_MOD
               ∧ log10_to_int (amount_of i) = floor_log10 (amount_of i)) l →
  bucket_members b l = floor_bucket_members b l.
Proof.
  unfold bucket_members, floor_bucket_members.
  induction 1 as [|i l [Hrange Hexact] _ IH]; [done|].
  assert (bucket_index i = floor_log10 (amount_of i)) as Hindex.
  { unfold bucket_index, int_to_uint64. rewrite Hexact.
    destruct (floor_log10_spec _ Hrange) as [Hsmall _].
    apply Z.mod_small. unfold UINT64_MOD. lia. }
  destruct (decide (floor_log10 (amount_of i) = b)) as [Hb|Hb].
  - rewrite !filter_cons_True by congruence. by rewrite IH.
  - rewrite !filter_cons_False by congruence. done.
Qed.

(** X28: where the truncated floating-point logarithm of every candidate
    amount is the exact [floor(log10)], the buckets of the code are the
    buckets by [floor(log10(amount))] and the full-bucket rule holds for
    them, whatever the two shuffles produce. *)
Theorem floor_bucket_rule_when_exact
    (shuffle : list TxInputAndOwner.t → list TxInputAndOwner.t)
    (shuffleBuckets : list (list TxInputAndOwner.t) → list (list TxInputAndOwner.t))
    (takeFromAll : bool) (keys : list PublicKey) (mixin : Z) (c : SubWallets)
    (availableInputs : list TxInputAndOwner.t) :
  m_isViewWallet c = false →
  gatherInputs takeFromAll keys c = Returns availableInputs →
  (∀ l, shuffle l ≡ₚ l) →
  (∀ l, shuffleBuckets l ≡ₚ l) →
  Forall (λ i, 1 ≤ amount_of i < UINT64_MOD
               ∧ log10_to_int (amount_of i) = floor_log10 (amount_of i))
    availableInputs →
  floor_bucket_rule shuffle shuffleBuckets takeFromAll keys mixin c.
Proof.
  intros Hfull Hgather Hshuffle Hshuffle2 Hexact avail Hgather' [b Hb]
    inputs maxInputsToTake foundMoney Hret.
  rewrite Hgather in Hgather'. injection Hgather' as <-.
  assert (∀ b', bucket_members b' availableInputs
                = floor_bucket_members b' availableInputs) as Hsame
    by (intros b'; by apply bucket_members_floor).
  destruct (getFusionTransactionInputs_full_bucket shuffle shuffleBuckets
              takeFromAll keys mixin c availableInputs)
    as (inputs' & foundMoney' & Hret' & b' & Hb' & Hall); try done.
  - eapply Forall_impl; [exact Hexact|]. intros i [Hi _]. simpl. lia.
  - exists b. unfold full_bucket. rewrite Hsame. exact Hb.
  - rewrite Hret in Hret'. injection Hret' as -> _ _.
    exists b'. unfold full_bucket in Hb'. rewrite Hsame in Hb', Hall.
    by split.
Qed.

End exact_logarithm.

Lemma floor_bucket_rule_when_exact_witness :
  m_isViewWallet ex_wallet_funded = false
  ∧ gatherInputs true [] ex_wallet_funded = Returns ex_available
  ∧ (∀ l : list TxInputAndOwner.t, reverse l ≡ₚ l)
  ∧ (∀ l : list (list TxInputAndOwner.t), reverse l ≡ₚ l)
  ∧ Forall (λ i, 1 ≤ amount_of i < UINT64_MOD
                 ∧ log10_to_int (Externals := ex_externals) (amount_of i)
                   = floor_log10 (amount_of i)) ex_available
  ∧ floor_bucket_rule (H := ex_externals) reverse reverse true [] 0
      ex_wallet_funded.
Proof.
  assert (Forall (λ i, 1 ≤ amount_of i < UINT64_MOD
                       ∧ log10_to_int (Externals := ex_externals) (amount_of i)
                         = floor_log10 (amount_of i)) ex_available) as Hexact.
  { unfold ex_available, amount_of, UINT64_MOD.
    repeat (constructor; [simpl; split; [lia | reflexivity]|]). constructor. }
  exact (conj eq_refl (conj ex_available_gathered
    (conj reverse_Permutation (conj reverse_Permutation (conj Hexact
      (floor_bucket_rule_when_exact (H := ex_externals) reverse reverse true
         [] 0 ex_wallet_funded ex_available eq_refl ex_available_gathered
         reverse_Permutation reverse_Permutation Hexact)))))).
Defined.
